(** * Client-side ledger projection core of radixdlt-js

    A shallow embedding of three account-level components of the light
    client and of the claims its specification makes about them:

    - [RadixTransferAccountSystem] (src/modules/account/RadixTransferAccountSystem.ts),
      the UTXO projection folding atom updates into unspent / spent
      consumables, balances and a transaction history;
    - [RadixNodeConnection], the RPC session with its reference-counted
      idle close and its atom-submission lifecycles;
    - [RadixCacheAccountSystem], the optional write-through atom cache.

    JavaScript objects used as dictionaries and [TSMap]s are finite maps
    ([gmap]); [BN] big integers are [Z]; Rx subjects are the log of what
    was pushed into them. *)

From Stdlib Require Import ZArith.
From stdpp Require Import gmap strings list fin_maps.

Local Open Scope Z_scope.
#[local] Set Warnings "-clear-no-such-hyp".

(** ** The atom model (module [atommodel], consumed by every system) *)

(** Modelled from the spec: [RadixSpin], whose declaration is not part of
    the sources at hand; "spin ∈ {UP, DOWN}". *)
Inductive RadixSpin := UP | DOWN.

(** A [RadixAddress] is an opaque identifier with byte-exact equality
    and a canonical string form; it is represented by that string, so
    that [a.equals(b)] is equality and [a.toString()] the identity. *)
Abbreviation RadixAddress := string (only parsing).

(** What the transfer system reads from a [RadixOwnedTokensParticle]:
    [_id], [getAddress()], [getAmount()], the string form of
    [getTokenClassReference()], and whether the object is an instance of
    the subclass [RadixFeeParticle]. *)
Record RadixOwnedTokensParticle := {
  _id : string;
  getAddress : RadixAddress;
  getAmount : Z;
  getTokenClassReference : string;
  instanceofRadixFeeParticle : bool
}.

(** Modelled from the spec: the particles of an atom are either
    token-bearing (owned-tokens particles, fee particles included) or of
    another kind (message, timestamp, ...), of which the systems below
    read nothing. *)
Inductive RadixParticle :=
| OwnedTokens (p : RadixOwnedTokensParticle)
| OtherParticle.

Record RadixSpunParticle := {
  spin : RadixSpin;
  particle : RadixParticle
}.

Record RadixAtom := {
  hid : string;
  getTimestamp : Z;
  particles : list RadixSpunParticle
}.

(** Modelled from the spec: [atom.getSpunParticlesOfType(RadixOwnedTokensParticle)],
    the spun particles of the atom that are token-bearing, in atom order. *)
Definition getSpunParticlesOfType (atom : RadixAtom)
  : list (RadixSpin * RadixOwnedTokensParticle) :=
  omap (λ sp, match particle sp with
              | OwnedTokens p => Some (spin sp, p)
              | OtherParticle => None
              end) (particles atom).

(** Modelled from the spec: [atom.containsParticle(RadixOwnedTokensParticle)],
    "updates whose atom contains no token-bearing particle are ignored". *)
Definition containsParticle (atom : RadixAtom) : bool :=
  existsb (λ sp, match particle sp with
                 | OwnedTokens _ => true
                 | OtherParticle => false
                 end) (particles atom).

Inductive RadixDecryptionState := DECRYPTED | ENCRYPTED_NOT_OWNED | CANNOT_DECRYPT.

Record RadixDecryptedData := {
  decryptionState : RadixDecryptionState;
  data : string
}.

(** [atomUpdate.processedData]; [decryptedData] is absent until the
    decryption system has filled it in. *)
Record RadixProcessedData := {
  decryptedData : option RadixDecryptedData
}.

(** An update as the systems receive it. [processedData] is [None] when
    the object has no such property, as is the case of the updates
    [RadixNodeConnection] pushes ([{action: 'STORE', atom}]). *)
Record RadixAtomUpdate := {
  action : string;
  atom : RadixAtom;
  processedData : option RadixProcessedData
}.

(** ** Outcomes of calls that can throw *)

(** A JavaScript call either returns or throws; a thrown value (or the
    rejection of the promise of an [async] function) is [Throw]. *)
Inductive result (A : Type) :=
| Ok (a : A)
| Throw (error : string).
Arguments Ok {A} a.
Arguments Throw {A} error.

(** ** Dictionaries of big integers *)

(** The keys are the string forms of token class references, which are
    paths and never the name of a property an object inherits. *)

(** [if (!(k in o)) { o[k] = new BN(0) }]. *)
Definition initBN (k : string) (o : gmap string Z) : gmap string Z :=
  match o !! k with
  | Some _ => o
  | None => <[k := 0]> o
  end.

(** [o[k].iadd(q)] and [o[k].isub(q)]: in-place update of an entry that
    is present. *)
Definition iaddAt (k : string) (q : Z) (o : gmap string Z) : gmap string Z :=
  alter (λ v, v + q) k o.

Definition isubAt (k : string) (q : Z) (o : gmap string Z) : gmap string Z :=
  alter (λ v, v - q) k o.

(** Reading an entry as a number, an absent entry counting for 0. *)
Definition amountOf (o : gmap string Z) (k : string) : Z := default 0 (o !! k).

Module RadixTransferAccountSystem.

Record RadixTransaction := {
  tx_hid : string;
  tx_balance : gmap string Z;
  tx_fee : Z;
  tx_participants : gmap string RadixAddress;
  tx_timestamp : Z;
  tx_message : string
}.

Record RadixTransactionUpdate := {
  tu_action : string;
  tu_hid : string;
  tu_transaction : RadixTransaction
}.

(** The fields of the class. The two subjects are represented by the
    list of values passed to their [next], oldest first (a snapshot of
    the value at the time of the call). *)
Record t := {
  address : RadixAddress;
  transactions : gmap string RadixTransaction;
  balance : gmap string Z;
  unspentConsumables : gmap string RadixOwnedTokensParticle;
  spentConsumables : gmap string RadixOwnedTokensParticle;
  transactionSubject : list RadixTransactionUpdate;
  balanceSubject : list (gmap string Z)
}.

(** [new RadixTransferAccountSystem(address)]. *)
Definition create (address : RadixAddress) : t :=
  {| address := address; transactions := ∅; balance := ∅;
     unspentConsumables := ∅; spentConsumables := ∅;
     transactionSubject := []; balanceSubject := [] |}.

(** What one iteration of the particle loops reads and writes: the two
    consumable maps of the system and the transaction under
    construction. *)
Record loopState := {
  ls_unspent : gmap string RadixOwnedTokensParticle;
  ls_spent : gmap string RadixOwnedTokensParticle;
  ls_transaction : RadixTransaction
}.

Definition setBalance (b : gmap string Z) (tx : RadixTransaction) : RadixTransaction :=
  {| tx_hid := tx_hid tx; tx_balance := b; tx_fee := tx_fee tx;
     tx_participants := tx_participants tx; tx_timestamp := tx_timestamp tx;
     tx_message := tx_message tx |}.

Definition setParticipants (ps : gmap string RadixAddress) (tx : RadixTransaction)
  : RadixTransaction :=
  {| tx_hid := tx_hid tx; tx_balance := tx_balance tx; tx_fee := tx_fee tx;
     tx_participants := ps; tx_timestamp := tx_timestamp tx;
     tx_message := tx_message tx |}.

Definition setMessage (m : string) (tx : RadixTransaction) : RadixTransaction :=
  {| tx_hid := tx_hid tx; tx_balance := tx_balance tx; tx_fee := tx_fee tx;
     tx_participants := tx_participants tx; tx_timestamp := tx_timestamp tx;
     tx_message := m |}.

(** The part shared by both loops once [quantity] is known (lines
    111-114 and 180-183). *)
Definition accumulate (p : RadixOwnedTokensParticle) (quantity : Z)
    (tx : RadixTransaction) : RadixTransaction :=
  let k := getTokenClassReference p in
  setBalance (iaddAt k quantity (initBN k (tx_balance tx))) tx.

(** The else-branch shared by both loops (lines 115-117 and 184-186). *)
Definition recordParticipant (p : RadixOwnedTokensParticle)
    (tx : RadixTransaction) : RadixTransaction :=
  setParticipants (<[getAddress p := getAddress p]> (tx_participants tx)) tx.

(** Body of the loop of [processStoreAtom] (lines 84-118). *)
Definition storeConsumable (me : RadixAddress)
    (consumable : RadixSpin * RadixOwnedTokensParticle) (st : loopState) : loopState :=
  let '(spin, particle) := consumable in
  let ownedByMe := bool_decide (getAddress particle = me) in
  let isFee := instanceofRadixFeeParticle particle in
  if ownedByMe && negb isFee then
    let quantity := 1 in
    match spin with
    | DOWN =>
        let quantity := quantity - getAmount particle in
        {| ls_unspent := delete (_id particle) (ls_unspent st);
           ls_spent := <[_id particle := particle]> (ls_spent st);
           ls_transaction := accumulate particle quantity (ls_transaction st) |}
    | UP =>
        let quantity := quantity + getAmount particle in
        {| ls_unspent :=
             match ls_spent st !! _id particle with
             | None => <[_id particle := particle]> (ls_unspent st)
             | Some _ => ls_unspent st
             end;
           ls_spent := ls_spent st;
           ls_transaction := accumulate particle quantity (ls_transaction st) |}
    end
  else if negb ownedByMe && negb isFee then
    {| ls_unspent := ls_unspent st; ls_spent := ls_spent st;
       ls_transaction := recordParticipant particle (ls_transaction st) |}
  else st.

(** Body of the loop of [processDeleteAtom] (lines 154-187). *)
Definition deleteConsumable (me : RadixAddress)
    (consumable : RadixSpin * RadixOwnedTokensParticle) (st : loopState) : loopState :=
  let '(spin, particle) := consumable in
  let ownedByMe := bool_decide (getAddress particle = me) in
  let isFee := instanceofRadixFeeParticle particle in
  if ownedByMe && negb isFee then
    let quantity := 0 in
    match spin with
    | DOWN =>
        let quantity := quantity + getAmount particle in
        {| ls_unspent := <[_id particle := particle]> (ls_unspent st);
           ls_spent := delete (_id particle) (ls_spent st);
           ls_transaction := accumulate particle quantity (ls_transaction st) |}
    | UP =>
        let quantity := quantity - getAmount particle in
        {| ls_unspent := delete (_id particle) (ls_unspent st);
           ls_spent := <[_id particle := particle]> (ls_spent st);
           ls_transaction := accumulate particle quantity (ls_transaction st) |}
    end
  else if negb ownedByMe && negb isFee then
    {| ls_unspent := ls_unspent st; ls_spent := ls_spent st;
       ls_transaction := recordParticipant particle (ls_transaction st) |}
  else st.

(** [for (const consumable of consumables) { body }]. *)
Definition forEachConsumable
    (body : RadixSpin * RadixOwnedTokensParticle → loopState → loopState)
    (consumables : list (RadixSpin * RadixOwnedTokensParticle))
    (st : loopState) : loopState :=
  fold_left (λ acc c, body c acc) consumables st.

(** The two "Update balance" loops (lines 123-129 and 192-198):
    [for (const tokenId in transaction.balance)]. Each iteration touches
    the entry of its own key only, so the order of enumeration does not
    matter. *)
Definition addToBalance (txBalance balance : gmap string Z) : gmap string Z :=
  map_fold (λ tokenId v acc, iaddAt tokenId v (initBN tokenId acc)) balance txBalance.

Definition subFromBalance (txBalance balance : gmap string Z) : gmap string Z :=
  map_fold (λ tokenId v acc, isubAt tokenId v (initBN tokenId acc)) balance txBalance.

(** The transaction [processStoreAtom] starts from (lines 60-79), for an
    update whose [processedData] is [processed]. *)
Definition newTransaction (atomUpdate : RadixAtomUpdate)
    (processed : RadixProcessedData) : RadixTransaction :=
  let transaction :=
    {| tx_hid := hid (atom atomUpdate); tx_balance := ∅; tx_fee := 0;
       tx_participants := ∅; tx_timestamp := getTimestamp (atom atomUpdate);
       tx_message := "" |} in
  match decryptedData processed with
  | Some d =>
      match decryptionState d with
      | CANNOT_DECRYPT => transaction
      | _ => setMessage (data d) transaction
      end
  | None => transaction
  end.

(** [processStoreAtom], as the state it leaves. The read of
    [atomUpdate.processedData.decryptedData] at line 76 throws a
    TypeError when the update has no [processedData]; nothing has been
    written by then, so the state stays as it was. *)
Definition processStoreAtom (atomUpdate : RadixAtomUpdate) (this : t) : t :=
  let atom := atom atomUpdate in
  match transactions this !! hid atom with
  | Some _ => this
  | None =>
      match processedData atomUpdate with
      | None => this
      | Some processed =>
          let consumables := getSpunParticlesOfType atom in
          let st := forEachConsumable (storeConsumable (address this)) consumables
                      {| ls_unspent := unspentConsumables this;
                         ls_spent := spentConsumables this;
                         ls_transaction := newTransaction atomUpdate processed |} in
          let transaction := ls_transaction st in
          let balance := addToBalance (tx_balance transaction) (balance this) in
          {| address := address this;
             transactions := <[hid atom := transaction]> (transactions this);
             balance := balance;
             unspentConsumables := ls_unspent st;
             spentConsumables := ls_spent st;
             transactionSubject := transactionSubject this ++
               [{| tu_action := "STORE"; tu_hid := hid atom;
                   tu_transaction := transaction |}];
             balanceSubject := balanceSubject this ++ [balance] |}
      end
  end.

Definition processDeleteAtom (atomUpdate : RadixAtomUpdate) (this : t) : t :=
  let atom := atom atomUpdate in
  match transactions this !! hid atom with
  | None => this
  | Some transaction =>
      let consumables := getSpunParticlesOfType atom in
      let st := forEachConsumable (deleteConsumable (address this)) consumables
                  {| ls_unspent := unspentConsumables this;
                     ls_spent := spentConsumables this;
                     ls_transaction := transaction |} in
      let transaction := ls_transaction st in
      let balance := subFromBalance (tx_balance transaction) (balance this) in
      {| address := address this;
         transactions := delete (hid atom) (transactions this);
         balance := balance;
         unspentConsumables := ls_unspent st;
         spentConsumables := ls_spent st;
         transactionSubject := transactionSubject this ++
           [{| tu_action := "DELETE"; tu_hid := hid atom; tu_transaction := transaction |}];
         balanceSubject := balanceSubject this ++ [balance] |}
  end.

Definition processAtomUpdate (atomUpdate : RadixAtomUpdate) (this : t) : t :=
  if negb (containsParticle (atom atomUpdate)) then this
  else if bool_decide (action atomUpdate = "STORE") then processStoreAtom atomUpdate this
  else if bool_decide (action atomUpdate = "DELETE") then processDeleteAtom atomUpdate this
  else this.

(** Whether the call returns or throws, with the state it leaves when
    it returns. The only statement of the class that can throw on an
    update is the read at line 76, which [processStoreAtom] reaches for
    an atom that is not yet stored. *)
Definition processStoreAtom_outcome (atomUpdate : RadixAtomUpdate) (this : t)
  : result t :=
  match transactions this !! hid (atom atomUpdate) with
  | Some _ => Ok this
  | None =>
      match processedData atomUpdate with
      | None => Throw "TypeError"
      | Some _ => Ok (processStoreAtom atomUpdate this)
      end
  end.

Definition processAtomUpdate_outcome (atomUpdate : RadixAtomUpdate) (this : t)
  : result t :=
  if negb (containsParticle (atom atomUpdate)) then Ok this
  else if bool_decide (action atomUpdate = "STORE")
  then processStoreAtom_outcome atomUpdate this
  else if bool_decide (action atomUpdate = "DELETE")
  then Ok (processDeleteAtom atomUpdate this)
  else Ok this.

End RadixTransferAccountSystem.

(** ** Rx subjects *)

Module Rx.

Inductive notification (A : Type) :=
| Next (a : A)
| Error (e : string)
| Complete.
Arguments Next {A} a.
Arguments Error {A} e.
Arguments Complete {A}.

(** A [BehaviorSubject]: its current value, what it has delivered to its
    observers so far (oldest first) and whether it has terminated. A
    plain [Subject] is used the same way, its [value] being ignored. *)
Record subject (A : Type) := {
  value : A;
  delivered : list (notification A);
  isStopped : bool
}.
Arguments value {A} _.
Arguments delivered {A} _.
Arguments isStopped {A} _.

(** [new BehaviorSubject(a)]. *)
Definition create {A} (a : A) : subject A :=
  {| value := a; delivered := []; isStopped := false |}.

(** [s.next(a)], [s.error(e)] and [s.complete()]: nothing reaches the
    observers of a subject that has terminated. A [BehaviorSubject]
    stores the value of [next] all the same. *)
Definition next {A} (a : A) (s : subject A) : subject A :=
  if isStopped s
  then {| value := a; delivered := delivered s; isStopped := true |}
  else {| value := a; delivered := delivered s ++ [Next a]; isStopped := false |}.

Definition error {A} (e : string) (s : subject A) : subject A :=
  if isStopped s then s
  else {| value := value s; delivered := delivered s ++ [Error e]; isStopped := true |}.

Definition complete {A} (s : subject A) : subject A :=
  if isStopped s then s
  else {| value := value s; delivered := delivered s ++ [Complete]; isStopped := true |}.

End Rx.

(** ** The node connection *)

Module RadixNodeConnection.

(** The callbacks this class hands to [setTimeout]: the idle close of
    the constructor (lines 50-52) and the submission timeout of
    [submitAtom] (lines 248-252), which closes over the subscriber id of
    the submission. *)
Inductive timerCallback :=
| IdleClose
| SubmitTimeout (subscriberId : nat).

(** A pending timer: the handle [setTimeout] returned, the time (in
    milliseconds) at which it fires, and its callback. *)
Record timer := {
  handle : nat;
  due : Z;
  callback : timerCallback
}.

(** The fields of the class, the socket and the timers of the event
    loop, for a connection whose socket [openConnection] has created. Of
    the socket only what the class does to it is kept: the [call]s
    issued (method and subscriber id) and the number of calls of
    [close()]. [emitted] lists the events the connection emitted. Each
    function below is one task of the event loop: the synchronous part
    of a method, a callback of a promise, a handler of a socket event or
    the callback of a timer. *)
Record t := {
  socketCalls : list (string * option nat);
  socketCloseCalls : nat;
  _subscriptions : gmap nat (Rx.subject unit);
  _atomUpdateSubjects : gmap nat (Rx.subject string);
  _addressSubscriptions : gmap string nat;
  lastSubscriberId : nat;
  numberOfSubscriptions : Z;
  now : Z;
  timers : list timer;
  nextHandle : nat;
  emitted : list string
}.

Definition withSocket (calls : list (string * option nat)) (closes : nat) (this : t) : t :=
  {| socketCalls := calls; socketCloseCalls := closes;
     _subscriptions := _subscriptions this;
     _atomUpdateSubjects := _atomUpdateSubjects this;
     _addressSubscriptions := _addressSubscriptions this;
     lastSubscriberId := lastSubscriberId this;
     numberOfSubscriptions := numberOfSubscriptions this;
     now := now this; timers := timers this; nextHandle := nextHandle this;
     emitted := emitted this |}.

Definition withSubjects (subs : gmap nat (Rx.subject unit))
    (atomSubs : gmap nat (Rx.subject string)) (addrs : gmap string nat) (this : t) : t :=
  {| socketCalls := socketCalls this; socketCloseCalls := socketCloseCalls this;
     _subscriptions := subs;
     _atomUpdateSubjects := atomSubs;
     _addressSubscriptions := addrs;
     lastSubscriberId := lastSubscriberId this;
     numberOfSubscriptions := numberOfSubscriptions this;
     now := now this; timers := timers this; nextHandle := nextHandle this;
     emitted := emitted this |}.

Definition withCounters (lastId : nat) (n : Z) (this : t) : t :=
  {| socketCalls := socketCalls this; socketCloseCalls := socketCloseCalls this;
     _subscriptions := _subscriptions this;
     _atomUpdateSubjects := _atomUpdateSubjects this;
     _addressSubscriptions := _addressSubscriptions this;
     lastSubscriberId := lastId;
     numberOfSubscriptions := n;
     now := now this; timers := timers this; nextHandle := nextHandle this;
     emitted := emitted this |}.

Definition withTimers (time : Z) (pending : list timer) (next : nat) (this : t) : t :=
  {| socketCalls := socketCalls this; socketCloseCalls := socketCloseCalls this;
     _subscriptions := _subscriptions this;
     _atomUpdateSubjects := _atomUpdateSubjects this;
     _addressSubscriptions := _addressSubscriptions this;
     lastSubscriberId := lastSubscriberId this;
     numberOfSubscriptions := numberOfSubscriptions this;
     now := time; timers := pending; nextHandle := next;
     emitted := emitted this |}.

Definition emit (event : string) (this : t) : t :=
  {| socketCalls := socketCalls this; socketCloseCalls := socketCloseCalls this;
     _subscriptions := _subscriptions this;
     _atomUpdateSubjects := _atomUpdateSubjects this;
     _addressSubscriptions := _addressSubscriptions this;
     lastSubscriberId := lastSubscriberId this;
     numberOfSubscriptions := numberOfSubscriptions this;
     now := now this; timers := timers this; nextHandle := nextHandle this;
     emitted := emitted this ++ [event] |}.

(** [setTimeout(callback, delay)], returning the handle, and
    [clearTimeout(handle)]. *)
Definition setTimeout (cb : timerCallback) (delay : Z) (this : t) : t * nat :=
  (withTimers (now this)
     (timers this ++ [{| handle := nextHandle this; due := now this + delay; callback := cb |}])
     (S (nextHandle this)) this,
   nextHandle this).

Definition clearTimeout (h : nat) (this : t) : t :=
  withTimers (now this)
    (filter (λ tm, handle tm ≠ h) (timers this)) (nextHandle this) this.

(** [this._socket.call(method, {subscriberId, ...})] and
    [this._socket.close()]; the subscriber id of a call is [None] when
    the class passes [undefined]. *)
Definition socketCall (method : string) (subscriberId : option nat) (this : t) : t :=
  withSocket (socketCalls this ++ [(method, subscriberId)]) (socketCloseCalls this) this.

Definition socketClose (this : t) : t :=
  withSocket (socketCalls this) (S (socketCloseCalls this)) this.

(** [this.numberOfSubscriptions.next(value)]: the subject takes the
    value and runs the observer the constructor subscribed (lines
    47-54), which arms the idle close when the value is not positive. *)
Definition numberOfSubscriptions_next (value : Z) (this : t) : t :=
  let this := withCounters (lastSubscriberId this) value this in
  if bool_decide (value ≤ 0) then fst (setTimeout IdleClose 5000 this) else this.

(** The constructor: [lastSubscriberId = 1], a count of 1 (for which
    the observer, run once on subscription, arms nothing). *)
Definition create : t :=
  {| socketCalls := []; socketCloseCalls := 0;
     _subscriptions := ∅; _atomUpdateSubjects := ∅; _addressSubscriptions := ∅;
     lastSubscriberId := 1; numberOfSubscriptions := 1;
     now := 0; timers := []; nextHandle := 0; emitted := [] |}.

Definition getSubscriberId (this : t) : t * nat :=
  (withCounters (S (lastSubscriberId this)) (numberOfSubscriptions this) this,
   S (lastSubscriberId this)).

(** [subscribe(address, first)], up to the return of the subject; the
    result is the subscriber id under which the subject is stored. *)
Definition subscribe (address : string) (this : t) : t * nat :=
  let '(this, subscriberId) := getSubscriberId this in
  let this := withSubjects (<[subscriberId := Rx.create ()]> (_subscriptions this))
                (_atomUpdateSubjects this)
                (<[address := subscriberId]> (_addressSubscriptions this)) this in
  (socketCall "Atoms.subscribe" (Some subscriberId) this, subscriberId).

(** The [then] and [catch] callbacks of [subscribe] (lines 148-160). *)
Definition subscribe_then (first : bool) (this : t) : t :=
  if negb first
  then numberOfSubscriptions_next (numberOfSubscriptions this + 1) this
  else this.

Definition subscribe_catch (subscriberId : nat) (error : string) (this : t) : t :=
  withSubjects (alter (Rx.error error) subscriberId (_subscriptions this))
    (_atomUpdateSubjects this) (_addressSubscriptions this) this.

(** [unsubscribe(address)], up to the return of the promise; the result
    is the subscriber id the callbacks close over, [None] when the
    address has no entry. *)
Definition unsubscribe (address : string) (this : t) : t * option nat :=
  let subscriberId := _addressSubscriptions this !! address in
  (socketCall "Atoms.cancel" subscriberId this, subscriberId).

(** The [then] callback of [unsubscribe] (lines 179-187): completing a
    subject that is not there throws before the entry of the address is
    deleted, and the rejection goes to [catch]. *)
Definition unsubscribe_then (address : string) (subscriberId : option nat)
    (this : t) : t :=
  match subscriberId with
  | None => this
  | Some i =>
      match _subscriptions this !! i with
      | None => this
      | Some _ =>
          withSubjects (alter Rx.complete i (_subscriptions this))
            (_atomUpdateSubjects this)
            (delete address (_addressSubscriptions this)) this
      end
  end.

(** The [finally] callback of [unsubscribe] (lines 191-194), run when
    [Atoms.cancel] has settled either way. *)
Definition unsubscribe_finally (this : t) : t :=
  numberOfSubscriptions_next (numberOfSubscriptions this - 1) this.

(** The callbacks of the call of [unsubscribe]: [then] when it
    succeeded ([catch] only rejects the returned promise), followed by
    [finally]. *)
Definition unsubscribe_settled (address : string) (subscriberId : option nat)
    (outcome : result unit) (this : t) : t :=
  unsubscribe_finally
    match outcome with
    | Ok _ => unsubscribe_then address subscriberId this
    | Throw _ => this
    end.

(** The [then] callback of [unsubscribeAll] (lines 211-216). *)
Definition unsubscribeAll_then (this : t) : t :=
  numberOfSubscriptions_next 0 this.

(** [submitAtom(atom)], up to the return of the state subject; the
    result gives the subscriber id under which the subject is stored and
    the handle of the timeout. *)
Definition submitAtom (this : t) : t * nat * nat :=
  let '(this, subscriberId) := getSubscriberId this in
  let atomStateSubject := Rx.create "CREATED" in
  let this := withSubjects (_subscriptions this)
                (<[subscriberId := atomStateSubject]> (_atomUpdateSubjects this))
                (_addressSubscriptions this) this in
  let '(this, timeout) := setTimeout (SubmitTimeout subscriberId) 5000 this in
  (socketCall "Universe.submitAtomAndSubscribe" (Some subscriberId) this,
   subscriberId, timeout).

(** The state subject of a submission is the one [submitAtom] created;
    its callbacks reach it through their closure. It stays stored under
    its subscriber id, which is where the callbacks below find it. *)
Definition onAtomStateSubject (subscriberId : nat)
    (f : Rx.subject string → Rx.subject string) (this : t) : t :=
  withSubjects (_subscriptions this)
    (alter f subscriberId (_atomUpdateSubjects this))
    (_addressSubscriptions this) this.

(** The callbacks of the call of [submitAtom] (lines 259-272): [then]
    or [catch] according to how the call settled, followed by
    [finally]. *)
Definition submitAtom_then (subscriberId timeout : nat) (this : t) : t :=
  onAtomStateSubject subscriberId (Rx.next "SUBMITTED") (clearTimeout timeout this).

Definition submitAtom_catch (subscriberId timeout : nat) (error : string) (this : t) : t :=
  onAtomStateSubject subscriberId (Rx.error error) (clearTimeout timeout this).

Definition submitAtom_finally (this : t) : t :=
  numberOfSubscriptions_next (numberOfSubscriptions this + 1) this.

Definition submitAtom_settled (subscriberId timeout : nat) (outcome : result unit)
    (this : t) : t :=
  submitAtom_finally
    match outcome with
    | Ok _ => submitAtom_then subscriberId timeout this
    | Throw error => submitAtom_catch subscriberId timeout error this
    end.

(** [close] (lines 292-294). *)
Definition close (this : t) : t := socketClose this.

(** [_onClosed] (lines 296-317), the handler of the socket's [close]
    event. Neither map of subjects is ever unsubscribed, so [closed] is
    false for each of them. *)
Definition _onClosed (this : t) : t :=
  emit "closed"
    (withSubjects (Rx.error "Socket closed" <$> _subscriptions this)
       (Rx.error "Socket closed" <$> _atomUpdateSubjects this)
       (_addressSubscriptions this) this).

(** Running the callback of a timer that fires. *)
Definition fire (cb : timerCallback) (this : t) : t :=
  match cb with
  | IdleClose => close this
  | SubmitTimeout subscriberId =>
      onAtomStateSubject subscriberId (Rx.error "Socket timeout") (socketClose this)
  end.

(** The passage of [delay] milliseconds with no other event: the timers
    that have come due fire, in the order in which they were set (every
    delay of this class is the same 5000 ms, so this is the order of
    their due times), and are removed. *)
Definition advance (delay : Z) (this : t) : t :=
  let time := now this + delay in
  let fired := filter (λ tm, due tm ≤ time) (timers this) in
  let pending := filter (λ tm, ¬ due tm ≤ time) (timers this) in
  fold_left (λ acc tm, fire (callback tm) acc) fired
    (withTimers time pending (nextHandle this) this).

(** An [AtomSubmissionState.onNext] notification. *)
Record AtomSubmissionStateUpdateNotification := {
  subscriberId : nat;
  value : string;
  message : option string
}.

(** String concatenation with a value that may be [undefined]. *)
Definition toStringOrUndefined (message : option string) : string :=
  match message with
  | Some m => m
  | None => "undefined"
  end.

Definition isNonTerminal (value : string) : bool :=
  bool_decide (value = "SUBMITTING") || bool_decide (value = "SUBMITTED").

Definition isTerminalFailure (value : string) : bool :=
  bool_decide (value = "COLLISION") || bool_decide (value = "ILLEGAL_STATE")
  || bool_decide (value = "UNSUITABLE_PEER") || bool_decide (value = "VALIDATION_ERROR").

Definition isTerminal (value : string) : bool :=
  bool_decide (value = "STORED") || isTerminalFailure value.

(** [_onAtomSubmissionStateUpdate] (lines 319-350). The subject is
    looked up first; a method call on it throws when there is none. *)
Definition _onAtomSubmissionStateUpdate
    (notification : AtomSubmissionStateUpdateNotification) (this : t) : result t :=
  let subscriberId := subscriberId notification in
  let value := value notification in
  let message := message notification in
  let subject := _atomUpdateSubjects this !! subscriberId in
  if isNonTerminal value then
    match subject with
    | None => Throw "TypeError"
    | Some _ => Ok (onAtomStateSubject subscriberId (Rx.next value) this)
    end
  else if bool_decide (value = "STORED") then
    match subject with
    | None => Throw "TypeError"
    | Some _ =>
        let this := onAtomStateSubject subscriberId (Rx.next value) this in
        let this := onAtomStateSubject subscriberId Rx.complete this in
        Ok (numberOfSubscriptions_next (numberOfSubscriptions this - 1) this)
    end
  else if isTerminalFailure value then
    match subject with
    | None => Throw "TypeError"
    | Some _ =>
        let this := onAtomStateSubject subscriberId
                      (Rx.error (value +:+ ": " +:+ toStringOrUndefined message)) this in
        Ok (numberOfSubscriptions_next (numberOfSubscriptions this - 1) this)
    end
  else Ok this.

(** A run of notifications, delivered one after the other; it stops at
    the first one whose handler throws. *)
Fixpoint deliver (notifications : list AtomSubmissionStateUpdateNotification)
    (this : t) : result t :=
  match notifications with
  | [] => Ok this
  | n :: rest =>
      match _onAtomSubmissionStateUpdate n this with
      | Ok this => deliver rest this
      | Throw e => Throw e
      end
  end.

End RadixNodeConnection.

(** ** The cache account system *)

Module RadixCacheAccountSystem.

(** The interface [RadixAtomCacheProvider], over the state [P] of a
    provider. *)
Class RadixAtomCacheProvider (P : Type) := {
  storeAtom : RadixAtom → P → P;
  deleteAtom : RadixAtom → P → P;
  getAtoms : string → P → list RadixAtom
}.

(** Modelled from the spec: a provider, none of which is part of the
    sources at hand; "On STORE: write atom under key hid. On DELETE:
    remove atom under key hid. On load: produce the full set of
    previously-stored atoms". *)
#[export] Instance memoryProvider : RadixAtomCacheProvider (gmap string RadixAtom) := {|
  storeAtom a c := <[hid a := a]> c;
  deleteAtom a c := delete (hid a) c;
  getAtoms _ c := (map_to_list c).*2
|}.

Record t (P : Type) := {
  keyPair : string;
  atomCache : option P
}.
Arguments keyPair {P} _.
Arguments atomCache {P} _.

(** [new RadixCacheAccountSystem(keyPair, atomCache?)]. *)
Definition create {P} (keyPair : string) (atomCache : option P) : t P :=
  {| keyPair := keyPair; atomCache := atomCache |}.

Definition processAtomUpdate {P} `{RadixAtomCacheProvider P}
    (atomUpdate : RadixAtomUpdate) (this : t P) : result (t P) :=
  match atomCache this with
  | None => Ok this
  | Some cache =>
      if bool_decide (action atomUpdate = "STORE")
      then Ok {| keyPair := keyPair this;
                 atomCache := Some (storeAtom (atom atomUpdate) cache) |}
      else if bool_decide (action atomUpdate = "DELETE")
      then Ok {| keyPair := keyPair this;
                 atomCache := Some (deleteAtom (atom atomUpdate) cache) |}
      else Ok this
  end.

(** [loadAtoms] (lines 36-38) calls [getAtoms] on [this.atomCache]
    whether or not there is one; on [undefined] the call throws. *)
Definition loadAtoms {P} `{RadixAtomCacheProvider P} (this : t P)
  : result (list RadixAtom) :=
  match atomCache this with
  | None => Throw "TypeError"
  | Some cache => Ok (getAtoms (keyPair this) cache)
  end.

End RadixCacheAccountSystem.

(** ** Vocabulary of the properties *)

Module Transfer := RadixTransferAccountSystem.
Module Node := RadixNodeConnection.
Module Cache := RadixCacheAccountSystem.

(** The sum of [transaction.balance[k]] over the stored transactions. *)
Definition sumTransactionBalances (k : string)
    (transactions : gmap string Transfer.RadixTransaction) : Z :=
  map_fold (λ _ tx acc, acc + amountOf (Transfer.tx_balance tx) k) 0 transactions.

(** The sum of the amounts of the consumables of token class [k]. *)
Definition sumConsumables (k : string)
    (consumables : gmap string RadixOwnedTokensParticle) : Z :=
  map_fold (λ _ p acc,
              if bool_decide (getTokenClassReference p = k)
              then acc + getAmount p else acc) 0 consumables.

(** The states a transfer system of address [me] goes through: any
    sequence of [processAtomUpdate] from the state of the constructor,
    and the sequences made of STORE updates only. *)
Inductive reachable (me : RadixAddress) : Transfer.t → Prop :=
| reachable_create : reachable me (Transfer.create me)
| reachable_update atomUpdate this :
    reachable me this →
    reachable me (Transfer.processAtomUpdate atomUpdate this).

Inductive reachableByStore (me : RadixAddress) : Transfer.t → Prop :=
| reachableByStore_create : reachableByStore me (Transfer.create me)
| reachableByStore_update atomUpdate this :
    action atomUpdate = "STORE" →
    reachableByStore me this →
    reachableByStore me (Transfer.processAtomUpdate atomUpdate this).

(** No particle id is a key of both consumable maps. *)
Definition disjointConsumables (this : Transfer.t) : Prop :=
  dom (Transfer.unspentConsumables this) ∩ dom (Transfer.spentConsumables this) = ∅.

(** A particle counts for the balance of [me] when [me] owns it and it
    is not a fee particle (the test of line 96). *)
Definition counted (me : RadixAddress) (p : RadixOwnedTokensParticle) : bool :=
  bool_decide (getAddress p = me) && negb (instanceofRadixFeeParticle p).

(** The consumable maps already hold a spun particle the way the loop of
    [processDeleteAtom] leaves it: a counted DOWN-spin particle is
    unspent and not spent, a counted UP-spin particle is spent and not
    unspent. *)
Definition heldAsDeleted (me : RadixAddress)
    (unspent spent : gmap string RadixOwnedTokensParticle)
    (consumable : RadixSpin * RadixOwnedTokensParticle) : Prop :=
  counted me consumable.2 = true →
  match consumable.1 with
  | DOWN => unspent !! _id consumable.2 = Some consumable.2
            ∧ spent !! _id consumable.2 = None
  | UP => spent !! _id consumable.2 = Some consumable.2
          ∧ unspent !! _id consumable.2 = None
  end.

(** The ids of the particles whose entries a particle loop writes. *)
Definition touchedIds (me : RadixAddress)
    (consumables : list (RadixSpin * RadixOwnedTokensParticle)) : list string :=
  omap (λ c, if counted me c.2 then Some (_id c.2) else None) consumables.

(** Two loop states hold the same entries under [id]. *)
Definition agreeAt (st st' : Transfer.loopState) (id : string) : Prop :=
  Transfer.ls_unspent st !! id = Transfer.ls_unspent st' !! id
  ∧ Transfer.ls_spent st !! id = Transfer.ls_spent st' !! id.

(** The atoms and updates of the end-to-end scenarios: account [X],
    token class [T], another address [Y]. *)
Module Scenario.

Definition X : RadixAddress := "X".
Definition Y : RadixAddress := "Y".
Definition T : string := "T".

Definition tokens (id : string) (owner : RadixAddress) (amount : Z)
  : RadixOwnedTokensParticle :=
  {| _id := id; getAddress := owner; getAmount := amount;
     getTokenClassReference := T; instanceofRadixFeeParticle := false |}.

Definition p1 := tokens "p1" X 100.
Definition p2 := tokens "p2" X 30.
Definition p3 := tokens "p3" Y 70.

Definition spun (s : RadixSpin) (p : RadixOwnedTokensParticle) : RadixSpunParticle :=
  {| spin := s; particle := OwnedTokens p |}.

Definition a1 : RadixAtom :=
  {| hid := "a1"; getTimestamp := 1; particles := [spun UP p1] |}.

Definition a2 : RadixAtom :=
  {| hid := "a2"; getTimestamp := 2;
     particles := [spun DOWN p1; spun UP p2; spun UP p3] |}.

(** An atom that only spends [p1], towards [Y]. *)
Definition a3 : RadixAtom :=
  {| hid := "a3"; getTimestamp := 3; particles := [spun DOWN p1; spun UP p3] |}.

(** An atom between other accounts: [p3] goes from [Y] to [Y]. *)
Definition a4 : RadixAtom :=
  {| hid := "a4"; getTimestamp := 4; particles := [spun DOWN p3; spun UP p3] |}.

Definition update (action : string) (atom : RadixAtom) : RadixAtomUpdate :=
  {| action := action; atom := atom;
     processedData := Some {| decryptedData := None |} |}.

Definition initial : Transfer.t := Transfer.create X.
Definition afterA : Transfer.t := Transfer.processAtomUpdate (update "STORE" a1) initial.
Definition afterB : Transfer.t := Transfer.processAtomUpdate (update "STORE" a2) afterA.
Definition afterStoreDeleteA : Transfer.t :=
  Transfer.processAtomUpdate (update "DELETE" a1) afterA.

End Scenario.

(** A connection that goes idle and is used again within the grace
    period: the count drops to 0 at time 0, a subscription succeeds at
    time 1000, and the time reaches 5000. *)
Module IdleScenario.

Definition idle : Node.t := Node.unsubscribe_finally Node.create.
Definition reactivated : Node.t := Node.subscribe_then false (Node.advance 1000 idle).
Definition expired : Node.t := Node.advance 4000 reactivated.

End IdleScenario.

(** A submission on a new connection whose call fails, and one whose
    call succeeds. *)
Module SubmitScenario.

Definition submitted : Node.t := (Node.submitAtom Node.create).1.1.
Definition failed : Node.t := Node.submitAtom_settled 2 0 (Throw "boom") submitted.
Definition succeeded : Node.t := Node.submitAtom_settled 2 0 (Ok ()) submitted.

End SubmitScenario.

(** What a live submission stream delivers for a terminal notification. *)
Definition terminalDelivery (n : Node.AtomSubmissionStateUpdateNotification)
  : list (Rx.notification string) :=
  if bool_decide (Node.value n = "STORED")
  then [Rx.Next "STORED"; Rx.Complete]
  else [Rx.Error (Node.value n +:+ ": " +:+ Node.toStringOrUndefined (Node.message n))].

(** ** Vocabulary of the further properties *)

(** The addresses [processStoreAtom] and [processDeleteAtom] record as
    participants: those of the token particles that [me] does not own
    and that are not fee particles (the test of lines 115 and 184). *)
Definition foreignAddresses (me : RadixAddress)
    (consumables : list (RadixSpin * RadixOwnedTokensParticle)) : list RadixAddress :=
  omap (λ c, if negb (bool_decide (getAddress c.2 = me))
                && negb (instanceofRadixFeeParticle c.2)
             then Some (getAddress c.2) else None) consumables.

(** The quantity the loop of [processStoreAtom] computes for a spun
    particle (lines 97-104), the one the loop of [processDeleteAtom]
    computes (lines 167-174), and the signed amount of the particle. *)
Definition storeQuantity (c : RadixSpin * RadixOwnedTokensParticle) : Z :=
  match c.1 with
  | UP => 1 + getAmount c.2
  | DOWN => 1 - getAmount c.2
  end.

Definition deleteQuantity (c : RadixSpin * RadixOwnedTokensParticle) : Z :=
  match c.1 with
  | UP => 0 - getAmount c.2
  | DOWN => 0 + getAmount c.2
  end.

Definition signedAmount (c : RadixSpin * RadixOwnedTokensParticle) : Z :=
  match c.1 with
  | UP => getAmount c.2
  | DOWN => - getAmount c.2
  end.

(** The sum of [quantity] over the particles of token class [k] that
    count for [me]. *)
Definition sumQuantities (quantity : RadixSpin * RadixOwnedTokensParticle → Z)
    (me : RadixAddress) (k : string)
    (consumables : list (RadixSpin * RadixOwnedTokensParticle)) : Z :=
  foldr (λ c acc,
           if counted me c.2 && bool_decide (getTokenClassReference c.2 = k)
           then quantity c + acc else acc) 0 consumables.

(** What [transaction.hid], [fee], [timestamp] and [message] are. *)
Definition header (tx : Transfer.RadixTransaction) : string * Z * Z * string :=
  (Transfer.tx_hid tx, Transfer.tx_fee tx, Transfer.tx_timestamp tx,
   Transfer.tx_message tx).

(** The message [processStoreAtom] gives the transaction of an update
    whose [processedData] is [processed] (lines 76-79). *)
Definition messageOf (processed : RadixProcessedData) : string :=
  match decryptedData processed with
  | Some {| decryptionState := CANNOT_DECRYPT |} => ""
  | Some d => data d
  | None => ""
  end.

(** The value the balance subject holds: the last value pushed into it,
    or the balance it was created with (an empty one). *)
Definition balanceSubjectValue (this : Transfer.t) : gmap string Z :=
  default ∅ (last (Transfer.balanceSubject this)).

(** What happens to a connection: each event runs one of the tasks of
    [RadixNodeConnection]. The arguments of a callback are those its
    closure holds; they are left free here, so that the runs below
    include those of the class. A handler that throws leaves the
    connection as it was. *)
Inductive connectionEvent :=
| Subscribe (address : string)
| SubscribeThen (first : bool)
| SubscribeCatch (subscriberId : nat) (error : string)
| Unsubscribe (address : string)
| UnsubscribeSettled (address : string) (subscriberId : option nat)
    (outcome : result unit)
| UnsubscribeAllThen
| SubmitAtom
| SubmitAtomSettled (subscriberId timeout : nat) (outcome : result unit)
| AtomSubmissionStateUpdate (notification : Node.AtomSubmissionStateUpdateNotification)
| Elapse (delay : Z)
| Close
| SocketClosed.

Definition connectionStep (e : connectionEvent) (this : Node.t) : Node.t :=
  match e with
  | Subscribe address => (Node.subscribe address this).1
  | SubscribeThen first => Node.subscribe_then first this
  | SubscribeCatch subscriberId error => Node.subscribe_catch subscriberId error this
  | Unsubscribe address => (Node.unsubscribe address this).1
  | UnsubscribeSettled address subscriberId outcome =>
      Node.unsubscribe_settled address subscriberId outcome this
  | UnsubscribeAllThen => Node.unsubscribeAll_then this
  | SubmitAtom => (Node.submitAtom this).1.1
  | SubmitAtomSettled subscriberId timeout outcome =>
      Node.submitAtom_settled subscriberId timeout outcome this
  | AtomSubmissionStateUpdate notification =>
      match Node._onAtomSubmissionStateUpdate notification this with
      | Ok after => after
      | Throw _ => this
      end
  | Elapse delay => Node.advance delay this
  | Close => Node.close this
  | SocketClosed => Node._onClosed this
  end.

Inductive connectionReachable : Node.t → Prop :=
| connectionReachable_create : connectionReachable Node.create
| connectionReachable_step e this :
    connectionReachable this →
    connectionReachable (connectionStep e this).

(** Every subscriber id in use (by a stream or by a pending submission
    timeout) has been allocated, and so has the handle of every pending
    timer. *)
Definition allocated (this : Node.t) : Prop :=
  (∀ i, is_Some (Node._subscriptions this !! i) → (i ≤ Node.lastSubscriberId this)%nat)
  ∧ (∀ i, is_Some (Node._atomUpdateSubjects this !! i) →
          (i ≤ Node.lastSubscriberId this)%nat)
  ∧ Forall (λ tm, (Node.handle tm < Node.nextHandle this)%nat
                  ∧ match Node.callback tm with
                    | Node.SubmitTimeout i => (i ≤ Node.lastSubscriberId this)%nat
                    | Node.IdleClose => True
                    end) (Node.timers this).

(** [after] uses no subscriber id and no timer handle that [this] had
    not in use or that was not allocated since. *)
Definition extends (this after : Node.t) : Prop :=
  (Node.lastSubscriberId this ≤ Node.lastSubscriberId after)%nat
  ∧ (Node.nextHandle this ≤ Node.nextHandle after)%nat
  ∧ (∀ i, is_Some (Node._subscriptions after !! i) →
          is_Some (Node._subscriptions this !! i)
          ∨ (i ≤ Node.lastSubscriberId after)%nat)
  ∧ (∀ i, is_Some (Node._atomUpdateSubjects after !! i) →
          is_Some (Node._atomUpdateSubjects this !! i)
          ∨ (i ≤ Node.lastSubscriberId after)%nat)
  ∧ (∀ tm, tm ∈ Node.timers after →
           tm ∈ Node.timers this
           ∨ ((Node.nextHandle this ≤ Node.handle tm < Node.nextHandle after)%nat
              ∧ match Node.callback tm with
                | Node.SubmitTimeout i => (i ≤ Node.lastSubscriberId after)%nat
                | Node.IdleClose => True
                end)).

(** The atom of scenario B stored first, into the initial state: it
    spends [p1], which the account has not received. *)
Definition afterOutOfOrder : Transfer.t :=
  Transfer.processAtomUpdate (Scenario.update "STORE" Scenario.a2) Scenario.initial.

(** STORED, notified to the submission of [SubmitScenario]. *)
Definition storedNotification : Node.AtomSubmissionStateUpdateNotification :=
  {| Node.subscriberId := 2; Node.value := "STORED"; Node.message := None |}.

(** An atom that creates [p1] once more. *)
Definition a5 : RadixAtom :=
  {| hid := "a5"; getTimestamp := 5; particles := [Scenario.spun UP Scenario.p1] |}.

(** * Properties of the transfer account system *)

Section TransferFacts.

Import RadixTransferAccountSystem.

Lemma lookup_initBN k o j :
  initBN k o !! j = if decide (k = j) then Some (amountOf o k) else o !! j.
Proof.
  unfold initBN, amountOf. destruct (o !! k) as [v|] eqn:E.
  - case_decide; subst; by rewrite ?E.
  - rewrite lookup_insert. by case_decide.
Qed.

Lemma lookup_iaddAt_initBN k q o j :
  iaddAt k q (initBN k o) !! j
  = if decide (k = j) then Some (amountOf o k + q) else o !! j.
Proof.
  unfold iaddAt. rewrite lookup_alter, !lookup_initBN.
  repeat case_decide; by simplify_eq.
Qed.

Lemma lookup_isubAt_initBN k q o j :
  isubAt k q (initBN k o) !! j
  = if decide (k = j) then Some (amountOf o k - q) else o !! j.
Proof.
  unfold isubAt. rewrite lookup_alter, !lookup_initBN.
  repeat case_decide; by simplify_eq.
Qed.

Lemma lookup_addToBalance txBalance bal j :
  addToBalance txBalance bal !! j
  = match txBalance !! j with
    | Some v => Some (amountOf bal j + v)
    | None => bal !! j
    end.
Proof.
  unfold addToBalance.
  apply (map_fold_weak_ind (λ r m, r !! j = match m !! j with
                                            | Some v => Some (amountOf bal j + v)
                                            | None => bal !! j
                                            end)).
  - by rewrite lookup_empty.
  - intros i x m r Hi IH. rewrite lookup_iaddAt_initBN, lookup_insert.
    case_decide; subst; [|done].
    rewrite Hi in IH. unfold amountOf. by rewrite IH.
Qed.

Lemma lookup_subFromBalance txBalance bal j :
  subFromBalance txBalance bal !! j
  = match txBalance !! j with
    | Some v => Some (amountOf bal j - v)
    | None => bal !! j
    end.
Proof.
  unfold subFromBalance.
  apply (map_fold_weak_ind (λ r m, r !! j = match m !! j with
                                            | Some v => Some (amountOf bal j - v)
                                            | None => bal !! j
                                            end)).
  - by rewrite lookup_empty.
  - intros i x m r Hi IH. rewrite lookup_isubAt_initBN, lookup_insert.
    case_decide; subst; [|done].
    rewrite Hi in IH. unfold amountOf. by rewrite IH.
Qed.

Lemma amountOf_addToBalance txBalance bal k :
  amountOf (addToBalance txBalance bal) k = amountOf bal k + amountOf txBalance k.
Proof.
  unfold amountOf at 1 3. rewrite lookup_addToBalance.
  destruct (txBalance !! k); simpl; [done|]. unfold amountOf. lia.
Qed.

(** *** The particle loops and the consumable maps *)

Lemma counted_spec me p :
  counted me p = bool_decide (getAddress p = me) && negb (instanceofRadixFeeParticle p).
Proof. done. Qed.

Lemma storeConsumable_frame me c st id :
  ¬ (counted me c.2 = true ∧ _id c.2 = id) →
  agreeAt (storeConsumable me c st) st id.
Proof.
  destruct c as [sp p]. unfold agreeAt, storeConsumable, counted. simpl.
  intros Hn.
  destruct (bool_decide (getAddress p = me)), (instanceofRadixFeeParticle p);
    simpl in *; try done.
  assert (_id p ≠ id) by (intros Heq; by apply Hn).
  destruct sp; simpl.
  - destruct (ls_spent st !! _id p); by rewrite ?lookup_insert_ne.
  - by rewrite lookup_delete_ne, lookup_insert_ne.
Qed.

Lemma deleteConsumable_frame me c st id :
  ¬ (counted me c.2 = true ∧ _id c.2 = id) →
  agreeAt (deleteConsumable me c st) st id.
Proof.
  destruct c as [sp p]. unfold agreeAt, deleteConsumable, counted. simpl.
  intros Hn.
  destruct (bool_decide (getAddress p = me)), (instanceofRadixFeeParticle p);
    simpl in *; try done.
  assert (_id p ≠ id) by (intros Heq; by apply Hn).
  destruct sp; simpl; by rewrite lookup_delete_ne, lookup_insert_ne.
Qed.

(** The loop of [processDeleteAtom] writes both entries of a counted
    particle whatever they were. *)
Lemma deleteConsumable_agree me c st st' id :
  (counted me c.2 = true ∧ _id c.2 = id) ∨ agreeAt st st' id →
  agreeAt (deleteConsumable me c st) (deleteConsumable me c st') id.
Proof.
  intros [[Hc <-]|Hag].
  - destruct c as [sp p]. unfold agreeAt, deleteConsumable. simpl in *.
    unfold counted in Hc. rewrite Hc.
    destruct sp; simpl; by rewrite !lookup_delete_eq, !lookup_insert_eq.
  - destruct (decide (counted me c.2 = true ∧ _id c.2 = id)) as [[Hc <-]|Hn].
    + destruct c as [sp p]. unfold agreeAt, deleteConsumable. simpl in *.
      unfold counted in Hc. rewrite Hc.
      destruct sp; simpl; by rewrite !lookup_delete_eq, !lookup_insert_eq.
    + pose proof (deleteConsumable_frame me c st id Hn) as [Hu Hs].
      pose proof (deleteConsumable_frame me c st' id Hn) as [Hu' Hs'].
      unfold agreeAt in *. by rewrite Hu, Hs, Hu', Hs'.
Qed.

Lemma elem_of_touchedIds_cons me c cs id :
  id ∈ touchedIds me (c :: cs)
  ↔ (counted me c.2 = true ∧ _id c.2 = id) ∨ id ∈ touchedIds me cs.
Proof.
  unfold touchedIds. simpl. destruct (counted me c.2); simpl.
  - rewrite elem_of_cons. naive_solver.
  - naive_solver.
Qed.

Lemma storeLoop_frame me cs st id :
  id ∉ touchedIds me cs →
  agreeAt (forEachConsumable (storeConsumable me) cs st) st id.
Proof.
  revert st. induction cs as [|c cs IH]; intros st Hid; [done|].
  rewrite elem_of_touchedIds_cons in Hid.
  unfold forEachConsumable in *. simpl.
  destruct (IH (storeConsumable me c st)) as [Hu Hs]; [naive_solver|].
  destruct (storeConsumable_frame me c st id) as [Hu' Hs']; [naive_solver|].
  unfold agreeAt. by rewrite Hu, Hs, Hu', Hs'.
Qed.

Lemma deleteLoop_agree me cs st st' :
  (∀ id, id ∈ touchedIds me cs ∨ agreeAt st st' id) →
  ∀ id, agreeAt (forEachConsumable (deleteConsumable me) cs st)
                (forEachConsumable (deleteConsumable me) cs st') id.
Proof.
  revert st st'. induction cs as [|c cs IH]; intros st st' H id.
  - destruct (H id) as [Hin|Hag]; [|done]. by apply elem_of_nil in Hin.
  - unfold forEachConsumable in *. simpl. apply IH. clear id. intros id.
    destruct (decide (id ∈ touchedIds me cs)) as [|Hnin]; [by left|right].
    apply deleteConsumable_agree.
    destruct (H id) as [Hin|Hag]; [|by right].
    apply elem_of_touchedIds_cons in Hin. naive_solver.
Qed.

(** A particle already held the way the loop of [processDeleteAtom]
    leaves it is left as it is. *)
Lemma deleteConsumable_held me c st :
  heldAsDeleted me (ls_unspent st) (ls_spent st) c →
  ls_unspent (deleteConsumable me c st) = ls_unspent st
  ∧ ls_spent (deleteConsumable me c st) = ls_spent st.
Proof.
  destruct c as [sp p]. unfold heldAsDeleted, deleteConsumable, counted. simpl.
  intros H.
  destruct (bool_decide (getAddress p = me)), (instanceofRadixFeeParticle p);
    simpl in *; try done.
  specialize (H eq_refl).
  destruct sp, H as [Hin Hout]; simpl; by rewrite insert_id, delete_id.
Qed.

Lemma deleteLoop_held me cs st :
  Forall (heldAsDeleted me (ls_unspent st) (ls_spent st)) cs →
  ls_unspent (forEachConsumable (deleteConsumable me) cs st) = ls_unspent st
  ∧ ls_spent (forEachConsumable (deleteConsumable me) cs st) = ls_spent st.
Proof.
  revert st. induction cs as [|c cs IH]; intros st H; [done|].
  apply Forall_cons in H as [Hc Hcs].
  destruct (deleteConsumable_held me c st Hc) as [Hu Hs].
  unfold forEachConsumable in *. simpl.
  destruct (IH (deleteConsumable me c st)) as [-> ->]; [|done].
  by rewrite Hu, Hs.
Qed.

Lemma storeConsumable_disjoint me c st :
  ls_unspent st ##ₘ ls_spent st →
  ls_unspent (storeConsumable me c st) ##ₘ ls_spent (storeConsumable me c st).
Proof.
  destruct c as [sp p]. unfold storeConsumable. intros Hd.
  destruct (bool_decide (getAddress p = me)), (instanceofRadixFeeParticle p);
    simpl; try done.
  destruct sp; simpl.
  - destruct (ls_spent st !! _id p) eqn:E; [done|].
    by apply map_disjoint_insert_l_2.
  - apply map_disjoint_insert_r_2; [apply lookup_delete_eq|].
    by apply map_disjoint_delete_l.
Qed.

Lemma deleteConsumable_disjoint me c st :
  ls_unspent st ##ₘ ls_spent st →
  ls_unspent (deleteConsumable me c st) ##ₘ ls_spent (deleteConsumable me c st).
Proof.
  destruct c as [sp p]. unfold deleteConsumable. intros Hd.
  destruct (bool_decide (getAddress p = me)), (instanceofRadixFeeParticle p);
    simpl; try done.
  destruct sp; simpl.
  - apply map_disjoint_insert_r_2; [apply lookup_delete_eq|].
    by apply map_disjoint_delete_l.
  - apply map_disjoint_insert_l_2; [apply lookup_delete_eq|].
    by apply map_disjoint_delete_r.
Qed.

Lemma forEachConsumable_disjoint body cs st :
  (∀ c st, ls_unspent st ##ₘ ls_spent st →
           ls_unspent (body c st) ##ₘ ls_spent (body c st)) →
  ls_unspent st ##ₘ ls_spent st →
  ls_unspent (forEachConsumable body cs st)
    ##ₘ ls_spent (forEachConsumable body cs st).
Proof.
  intros Hbody. revert st. unfold forEachConsumable.
  induction cs as [|c cs IH]; intros st Hd; [done|].
  simpl. by apply IH, Hbody.
Qed.

Lemma disjointConsumables_spec this :
  disjointConsumables this ↔ unspentConsumables this ##ₘ spentConsumables this.
Proof.
  unfold disjointConsumables. by rewrite map_disjoint_dom, disjoint_intersection_L.
Qed.

(** *** The quantity a counted particle adds to its transaction *)

Lemma storeConsumable_quantity me sp p st :
  counted me p = true →
  tx_balance (ls_transaction (storeConsumable me (sp, p) st))
    !! getTokenClassReference p
  = Some (amountOf (tx_balance (ls_transaction st)) (getTokenClassReference p)
          + match sp with
            | UP => 1 + getAmount p
            | DOWN => 1 - getAmount p
            end).
Proof.
  unfold counted, storeConsumable. intros ->.
  destruct sp; simpl; rewrite lookup_iaddAt_initBN; by case_decide.
Qed.

Lemma deleteConsumable_quantity me sp p st :
  counted me p = true →
  tx_balance (ls_transaction (deleteConsumable me (sp, p) st))
    !! getTokenClassReference p
  = Some (amountOf (tx_balance (ls_transaction st)) (getTokenClassReference p)
          + match sp with
            | UP => 0 - getAmount p
            | DOWN => 0 + getAmount p
            end).
Proof.
  unfold counted, deleteConsumable. intros ->.
  destruct sp; simpl; rewrite lookup_iaddAt_initBN; by case_decide.
Qed.

(** *** The sum over the stored transactions *)

Lemma sumTransactionBalances_insert k hid tx txs :
  txs !! hid = None →
  sumTransactionBalances k (<[hid := tx]> txs)
  = sumTransactionBalances k txs + amountOf (tx_balance tx) k.
Proof.
  intros Hfresh. unfold sumTransactionBalances.
  rewrite map_fold_insert_L; [done| |done].
  intros. lia.
Qed.

(** *** Unfolding [processAtomUpdate] *)

Lemma processAtomUpdate_store atomUpdate this :
  action atomUpdate = "STORE" →
  containsParticle (atom atomUpdate) = true →
  processAtomUpdate atomUpdate this = processStoreAtom atomUpdate this.
Proof. unfold processAtomUpdate. by intros -> ->. Qed.

Lemma processAtomUpdate_delete atomUpdate this :
  action atomUpdate = "DELETE" →
  containsParticle (atom atomUpdate) = true →
  processAtomUpdate atomUpdate this = processDeleteAtom atomUpdate this.
Proof. unfold processAtomUpdate. by intros -> ->. Qed.

Lemma processAtomUpdate_ignored atomUpdate this :
  containsParticle (atom atomUpdate) = false →
  processAtomUpdate atomUpdate this = this.
Proof. unfold processAtomUpdate. by intros ->. Qed.

Lemma processAtomUpdate_cases atomUpdate this :
  processAtomUpdate atomUpdate this = this
  ∨ processAtomUpdate atomUpdate this = processStoreAtom atomUpdate this
  ∨ processAtomUpdate atomUpdate this = processDeleteAtom atomUpdate this.
Proof.
  unfold processAtomUpdate.
  destruct (containsParticle (atom atomUpdate)); simpl; [|by left].
  repeat case_bool_decide; auto.
Qed.

(** *** The claims *)

(** C1. Storing the atom of scenario A (one owned UP-spin particle of
    amount 100 and token class T) into a new account leaves a balance
    of 101 for T, in the account and in the transaction: the quantity
    of [processStoreAtom] starts from 1, so that the delta of a particle
    is 1 + amount (and 1 - amount for DOWN), not the amount. *)
Theorem store_scenarioA_balance :
  balance Scenario.afterA = {[ Scenario.T := 101 ]}
  ∧ tx_balance <$> transactions Scenario.afterA !! "a1"
    = Some {[ Scenario.T := 101 ]}
  ∧ balance Scenario.afterA ≠ {[ Scenario.T := 100 ]}.
Proof.
  split; [by vm_compute|]. split; [by vm_compute|].
  intros H. apply (f_equal (λ m, m !! Scenario.T)) in H.
  vm_compute in H. discriminate.
Qed.

(** C2, as stated, fails: STORE then DELETE of the atom of scenario A,
    from the initial state, does not give back the three maps (its
    particle has become spent, and T has a balance); and STORE then
    DELETE of an atom that only spends [p1], after scenario A, does not
    give back the balance (1 for T, which was 101). *)
Lemma store_delete_scenarioA_not_restored :
  ¬ (unspentConsumables Scenario.afterStoreDeleteA
       = unspentConsumables Scenario.initial
     ∧ spentConsumables Scenario.afterStoreDeleteA
       = spentConsumables Scenario.initial
     ∧ balance Scenario.afterStoreDeleteA = balance Scenario.initial)
  ∧ balance (processAtomUpdate (Scenario.update "DELETE" Scenario.a3)
               (processAtomUpdate (Scenario.update "STORE" Scenario.a3)
                  Scenario.afterA))
    ≠ balance Scenario.afterA.
Proof.
  split.
  - intros (_ & H & _). apply (f_equal (λ m, m !! "p1")) in H.
    vm_compute in H. discriminate.
  - intros H. apply (f_equal (λ m, m !! Scenario.T)) in H.
    vm_compute in H. discriminate.
Qed.

(** C2, amended. For an atom that is not yet stored, STORE followed by
    DELETE of that atom gives back [transactions]; it gives back
    [unspentConsumables] and [spentConsumables] when, before the STORE,
    every owned non-fee DOWN-spin particle of the atom is unspent and
    not spent and every owned non-fee UP-spin particle is spent and not
    unspent. Nothing is said of [balance]. *)
Theorem store_then_delete_restores (store delete : RadixAtomUpdate) (this : t)
    (Hstore : action store = "STORE")
    (Hdelete : action delete = "DELETE")
    (Hsame : atom delete = atom store)
    (Hfresh : transactions this !! hid (atom store) = None) :
  let after := processAtomUpdate delete (processAtomUpdate store this) in
  transactions after = transactions this
  ∧ (Forall (heldAsDeleted (address this) (unspentConsumables this)
               (spentConsumables this))
            (getSpunParticlesOfType (atom store)) →
     unspentConsumables after = unspentConsumables this
     ∧ spentConsumables after = spentConsumables this).
Proof.
  destruct (containsParticle (atom store)) eqn:Hc; simpl.
  2:{ rewrite (processAtomUpdate_ignored store) by done.
      rewrite processAtomUpdate_ignored by (by rewrite Hsame). done. }
  rewrite (processAtomUpdate_store store), processAtomUpdate_delete;
    [|done|by rewrite Hsame|done|done].
  unfold processStoreAtom. rewrite Hfresh.
  destruct (processedData store) as [processed|].
  2:{ unfold processDeleteAtom. by rewrite Hsame, Hfresh. }
  unfold processDeleteAtom. simpl. rewrite Hsame, lookup_insert_eq. simpl.
  split; [by apply delete_insert_id|]. intros Hheld.
  set (cs := getSpunParticlesOfType (atom store)) in *.
  set (stored := forEachConsumable (storeConsumable (address this)) cs _).
  set (start := {| ls_unspent := unspentConsumables this;
                   ls_spent := spentConsumables this;
                   ls_transaction := ls_transaction stored |}).
  assert (∀ id, agreeAt
            (forEachConsumable (deleteConsumable (address this)) cs
               {| ls_unspent := ls_unspent stored; ls_spent := ls_spent stored;
                  ls_transaction := ls_transaction stored |})
            (forEachConsumable (deleteConsumable (address this)) cs start) id)
    as Hagree.
  { apply deleteLoop_agree. intros id.
    destruct (decide (id ∈ touchedIds (address this) cs)) as [|Hnin]; [by left|].
    right.
    pose proof (storeLoop_frame (address this) cs
                  {| ls_unspent := unspentConsumables this;
                     ls_spent := spentConsumables this;
                     ls_transaction := newTransaction store processed |}
                  id Hnin) as [Hu Hs].
    split; [exact Hu|exact Hs]. }
  destruct (deleteLoop_held (address this) cs start Hheld) as [Hu Hs].
  split.
  - etrans; [|exact Hu]. apply map_eq; intros id; apply Hagree.
  - etrans; [|exact Hs]. apply map_eq; intros id; apply Hagree.
Qed.

(** C2, amended, at an atom of account X that spends the unspent [p1]
    towards Y, after scenario A. *)
Lemma store_then_delete_restores_witness :
  let store := Scenario.update "STORE" Scenario.a3 in
  let delete := Scenario.update "DELETE" Scenario.a3 in
  let after := processAtomUpdate delete (processAtomUpdate store Scenario.afterA) in
  transactions after = transactions Scenario.afterA
  ∧ unspentConsumables after = unspentConsumables Scenario.afterA
  ∧ spentConsumables after = spentConsumables Scenario.afterA.
Proof.
  destruct (store_then_delete_restores (Scenario.update "STORE" Scenario.a3)
              (Scenario.update "DELETE" Scenario.a3) Scenario.afterA)
    as [Htransactions Hconsumables];
    [reflexivity | reflexivity | reflexivity | reflexivity |].
  split; [exact Htransactions|]. apply Hconsumables.
  apply Forall_cons; split; [intros _; split; reflexivity|].
  apply Forall_cons; split; [intros H; vm_compute in H; discriminate|].
  apply Forall_nil; exact I.
Defined.

(** C3, as stated, fails. An atom is folded in without a look at what
    the account holds: stored first, the atom of scenario B spends [p1],
    which the account never had. The state is reachable, the balance of
    T is below 0 and the unspent amounts of T sum to 30 (those of [p2]);
    the quantity the STORE loop starts from cannot account for it, since
    it only adds to the balance. *)
Lemma unspent_sum_fails_out_of_order :
  reachable Scenario.X afterOutOfOrder
  ∧ ¬ (amountOf (balance afterOutOfOrder) Scenario.T
         = sumTransactionBalances Scenario.T (transactions afterOutOfOrder)
       ∧ amountOf (balance afterOutOfOrder) Scenario.T
         = sumConsumables Scenario.T (unspentConsumables afterOutOfOrder))
  ∧ amountOf (balance afterOutOfOrder) Scenario.T < 0
  ∧ sumConsumables Scenario.T (unspentConsumables afterOutOfOrder) = 30.
Proof.
  split; [apply reachable_update, reachable_create|].
  split; [|split; reflexivity].
  intros [_ H]. vm_compute in H. discriminate.
Qed.

(** C3, amended. In every state reached from the initial one by STORE
    updates only, the balance of every token class is the sum of the
    balances the stored transactions have for it (an absent entry
    counting for 0). Nothing is said of the unspent amounts, nor of the
    states reached through a DELETE. *)
Theorem balance_is_sum_of_transactions (me : RadixAddress) (this : t)
    (Hreach : reachableByStore me this) (k : string) :
  amountOf (balance this) k = sumTransactionBalances k (transactions this).
Proof.
  induction Hreach as [|atomUpdate this Hstore Hreach IH]; [done|].
  unfold processAtomUpdate.
  destruct (containsParticle (atom atomUpdate)); simpl; [|done].
  rewrite Hstore. simpl. unfold processStoreAtom.
  destruct (transactions this !! hid (atom atomUpdate)) eqn:Hfresh; [done|].
  destruct (processedData atomUpdate) as [processed|]; [|done].
  simpl. rewrite sumTransactionBalances_insert, amountOf_addToBalance by done.
  by rewrite IH.
Qed.

(** C3, amended, at the state after scenarios A and B. *)
Lemma balance_is_sum_of_transactions_witness :
  amountOf (balance Scenario.afterB) Scenario.T
  = sumTransactionBalances Scenario.T (transactions Scenario.afterB).
Proof.
  apply (balance_is_sum_of_transactions Scenario.X Scenario.afterB).
  apply reachableByStore_update; [reflexivity|].
  apply reachableByStore_update; [reflexivity|].
  apply reachableByStore_create.
Defined.

(** C4. A STORE whose atom hid is already a key of [transactions] and a
    DELETE whose atom hid is not leave the whole system as it was: the
    four maps, and the two subjects, into which nothing is pushed. *)
Theorem redundant_update_absorbed (atomUpdate : RadixAtomUpdate) (this : t)
    (Hredundant :
       action atomUpdate = "STORE"
       ∧ is_Some (transactions this !! hid (atom atomUpdate))
       ∨ action atomUpdate = "DELETE"
         ∧ transactions this !! hid (atom atomUpdate) = None) :
  processAtomUpdate atomUpdate this = this.
Proof.
  unfold processAtomUpdate.
  destruct (containsParticle (atom atomUpdate)); simpl; [|done].
  destruct Hredundant as [[-> [tx Htx]] | [-> Hnone]]; simpl.
  - unfold processStoreAtom. by rewrite Htx.
  - unfold processDeleteAtom. by rewrite Hnone.
Qed.

(** C4 at scenario D (a second STORE of [a1]) and at the DELETE of
    [a2], which was never stored, both after scenario A. *)
Lemma redundant_update_absorbed_witness :
  processAtomUpdate (Scenario.update "STORE" Scenario.a1) Scenario.afterA
    = Scenario.afterA
  ∧ processAtomUpdate (Scenario.update "DELETE" Scenario.a2) Scenario.afterA
    = Scenario.afterA.
Proof.
  split.
  - apply (redundant_update_absorbed (Scenario.update "STORE" Scenario.a1)
             Scenario.afterA).
    left. split; [reflexivity|]. vm_compute. eauto.
  - apply (redundant_update_absorbed (Scenario.update "DELETE" Scenario.a2)
             Scenario.afterA).
    right. split; reflexivity.
Defined.

(** C5. Every [processAtomUpdate] keeps the ids of the unspent and of
    the spent consumables disjoint; the iteration of the STORE loop on
    an UP-spin particle whose id is among the spent ones leaves the
    unspent ones as they are, and the iteration of the DELETE loop on an
    UP-spin particle inserts nothing into them. *)
Theorem consumables_stay_disjoint (atomUpdate : RadixAtomUpdate) (this : t)
    (Hdisjoint : disjointConsumables this) :
  disjointConsumables (processAtomUpdate atomUpdate this)
  ∧ ∀ me p st,
      match ls_spent st !! _id p with
      | Some _ => ls_unspent (storeConsumable me (UP, p) st) = ls_unspent st
      | None => True
      end
      ∧ (ls_unspent (deleteConsumable me (UP, p) st) = ls_unspent st
         ∨ ls_unspent (deleteConsumable me (UP, p) st)
           = delete (_id p) (ls_unspent st)).
Proof.
  split.
  - apply disjointConsumables_spec. apply disjointConsumables_spec in Hdisjoint.
    destruct (processAtomUpdate_cases atomUpdate this) as [-> | [-> | ->]];
      [done| |].
    + unfold processStoreAtom.
      destruct (transactions this !! hid (atom atomUpdate)); [done|].
      destruct (processedData atomUpdate) as [processed|]; [|done]. simpl.
      apply forEachConsumable_disjoint; [apply storeConsumable_disjoint|done].
    + unfold processDeleteAtom.
      destruct (transactions this !! hid (atom atomUpdate)); [|done]. simpl.
      apply forEachConsumable_disjoint; [apply deleteConsumable_disjoint|done].
  - intros me p st. split.
    + destruct (ls_spent st !! _id p) eqn:E; [|done].
      unfold storeConsumable.
      destruct (bool_decide (getAddress p = me)), (instanceofRadixFeeParticle p);
        simpl; try done.
      by rewrite E.
    + unfold deleteConsumable.
      destruct (bool_decide (getAddress p = me)), (instanceofRadixFeeParticle p);
        simpl; auto.
Qed.

(** C5 at scenario B, which spends [p1] and creates [p2]. *)
Lemma consumables_stay_disjoint_witness :
  disjointConsumables Scenario.afterB.
Proof.
  apply (consumables_stay_disjoint (Scenario.update "STORE" Scenario.a2)
           Scenario.afterA).
  reflexivity.
Defined.



End TransferFacts.

(** * Properties of the node connection *)

Section NodeFacts.

Import RadixNodeConnection.

(** *** The timers *)

Lemma fire_counts cb this :
  numberOfSubscriptions (fire cb this) = numberOfSubscriptions this
  ∧ socketCloseCalls (fire cb this) = S (socketCloseCalls this).
Proof. by destruct cb. Qed.

Lemma fire_all_counts fired this :
  let after := fold_left (λ acc tm, fire (callback tm) acc) fired this in
  numberOfSubscriptions after = numberOfSubscriptions this
  ∧ socketCloseCalls after = (socketCloseCalls this + length fired)%nat.
Proof.
  revert this. induction fired as [|tm fired IH]; intros this; simpl.
  - split; [done|lia].
  - destruct (IH (fire (callback tm) this)) as [-> ->].
    destruct (fire_counts (callback tm) this) as [-> ->]. split; [done|lia].
Qed.

Lemma fire_all_timers fired this :
  timers (fold_left (λ acc tm, fire (callback tm) acc) fired this) = timers this.
Proof.
  revert this. induction fired as [|tm fired IH]; intros this; simpl; [done|].
  rewrite IH. by destruct (callback tm).
Qed.

Lemma fire_other_subject cb id this :
  cb ≠ SubmitTimeout id →
  _atomUpdateSubjects (fire cb this) !! id = _atomUpdateSubjects this !! id.
Proof.
  destruct cb as [|id']; [done|]. intros Hne. simpl.
  rewrite lookup_alter_ne; [done|]. congruence.
Qed.

Lemma fire_all_other_subject fired id this :
  Forall (λ tm, callback tm ≠ SubmitTimeout id) fired →
  _atomUpdateSubjects (fold_left (λ acc tm, fire (callback tm) acc) fired this) !! id
  = _atomUpdateSubjects this !! id.
Proof.
  revert this. induction fired as [|tm fired IH]; intros this Hall; [done|].
  apply Forall_cons in Hall as [Htm Hall]. simpl.
  rewrite IH by done. by apply fire_other_subject.
Qed.

(** *** Fields after the elementary steps *)

Lemma numberOfSubscriptions_next_count v this :
  numberOfSubscriptions (numberOfSubscriptions_next v this) = v.
Proof. unfold numberOfSubscriptions_next. by case_bool_decide. Qed.

Lemma numberOfSubscriptions_next_subjects v this :
  _atomUpdateSubjects (numberOfSubscriptions_next v this) = _atomUpdateSubjects this.
Proof. unfold numberOfSubscriptions_next. by case_bool_decide. Qed.

Lemma numberOfSubscriptions_next_closes v this :
  socketCloseCalls (numberOfSubscriptions_next v this) = socketCloseCalls this.
Proof. unfold numberOfSubscriptions_next. by case_bool_decide. Qed.

Lemma onAtomStateSubject_lookup id f this :
  _atomUpdateSubjects (onAtomStateSubject id f this) !! id
  = f <$> _atomUpdateSubjects this !! id.
Proof. apply lookup_alter_eq. Qed.

(** *** The submission notifications *)

Lemma isTerminal_not_isNonTerminal v :
  isTerminal v = true → isNonTerminal v = false.
Proof.
  unfold isTerminal, isTerminalFailure, isNonTerminal.
  repeat case_bool_decide; subst; simpl; done.
Qed.

Lemma deliver_app l1 l2 this :
  deliver (l1 ++ l2) this
  = match deliver l1 this with
    | Ok middle => deliver l2 middle
    | Throw e => Throw e
    end.
Proof.
  revert this. induction l1 as [|n l1 IH]; intros this; simpl; [done|].
  by destruct (_onAtomSubmissionStateUpdate n this).
Qed.

Lemma deliver_nonTerminal pre : ∀ this id subject,
  _atomUpdateSubjects this !! id = Some subject →
  Rx.isStopped subject = false →
  Forall (λ n, subscriberId n = id ∧ isNonTerminal (value n) = true) pre →
  ∃ middle subject',
    deliver pre this = Ok middle
    ∧ numberOfSubscriptions middle = numberOfSubscriptions this
    ∧ timers middle = timers this
    ∧ _atomUpdateSubjects middle !! id = Some subject'
    ∧ Rx.delivered subject' = Rx.delivered subject ++ (Rx.Next ∘ value <$> pre)
    ∧ Rx.isStopped subject' = false.
Proof.
  induction pre as [|n pre IH]; intros this id subject Hsub Hlive Hpre.
  - exists this, subject. by rewrite app_nil_r.
  - apply Forall_cons in Hpre as [[Hid Hn] Hpre]. simpl.
    unfold _onAtomSubmissionStateUpdate. rewrite Hn, Hid, Hsub.
    destruct (IH (onAtomStateSubject id (Rx.next (value n)) this) id
                (Rx.next (value n) subject))
      as (middle & subject' & Hrun & Hcount & Htimers & Hsub' & Hdel & Hlive').
    + by rewrite onAtomStateSubject_lookup, Hsub.
    + unfold Rx.next. by rewrite Hlive.
    + done.
    + exists middle, subject'. repeat split; try done.
      rewrite Hdel. unfold Rx.next. rewrite Hlive. simpl.
      by rewrite <- app_assoc.
Qed.

Lemma deliver_terminal n this id subject :
  _atomUpdateSubjects this !! id = Some subject →
  Rx.isStopped subject = false →
  subscriberId n = id →
  isTerminal (value n) = true →
  ∃ after subject',
    deliver [n] this = Ok after
    ∧ numberOfSubscriptions after = numberOfSubscriptions this - 1
    ∧ _atomUpdateSubjects after !! id = Some subject'
    ∧ Rx.delivered subject' = Rx.delivered subject ++ terminalDelivery n
    ∧ Rx.isStopped subject' = true.
Proof.
  intros Hsub Hlive Hid Hterminal. simpl.
  unfold _onAtomSubmissionStateUpdate, terminalDelivery.
  rewrite (isTerminal_not_isNonTerminal _ Hterminal), Hid, Hsub.
  unfold isTerminal in Hterminal.
  case_bool_decide as Hstored; simpl in Hterminal.
  - eexists _, _. split; [done|].
    rewrite numberOfSubscriptions_next_count, numberOfSubscriptions_next_subjects.
    rewrite !onAtomStateSubject_lookup, Hsub. simpl.
    split; [done|]. split; [done|].
    unfold Rx.complete, Rx.next. rewrite Hlive. simpl.
    rewrite Hstored, <- app_assoc. done.
  - rewrite Hterminal. eexists _, _. split; [done|].
    rewrite numberOfSubscriptions_next_count, numberOfSubscriptions_next_subjects.
    rewrite !onAtomStateSubject_lookup, Hsub. simpl.
    split; [done|]. split; [done|].
    unfold Rx.error. rewrite Hlive. done.
Qed.

(** *** The claims *)

(** C6, as stated, fails. The count goes below 0 (two unsubscriptions
    settle on a new connection); and in the idle scenario the count is
    positive again within the grace period, yet [close] is called when
    the period ends. *)
Lemma idle_close_not_cancelled :
  ¬ (0 ≤ numberOfSubscriptions (unsubscribe_finally IdleScenario.idle))
  ∧ ¬ (numberOfSubscriptions IdleScenario.idle = 0 →
       0 < numberOfSubscriptions IdleScenario.reactivated →
       now IdleScenario.reactivated < 5000 →
       socketCloseCalls IdleScenario.expired = socketCloseCalls IdleScenario.idle).
Proof.
  split.
  - vm_compute. intros H. by apply H.
  - intros H. specialize (H eq_refl eq_refl eq_refl). vm_compute in H. discriminate.
Qed.

(** C6, amended. The count can be negative. Publishing a count that is
    not positive arms one timer of 5000 ms; publishing a positive count
    arms none and removes none. The passage of time leaves the count as
    it is and calls [close] on the socket once for every timer that has
    come due, whatever the count is by then. *)
Theorem idle_close_timer (value delay : Z) (this : t) :
  timers (numberOfSubscriptions_next value this)
  = (if bool_decide (value ≤ 0)
     then timers this ++ [{| handle := nextHandle this;
                             due := now this + 5000;
                             callback := IdleClose |}]
     else timers this)
  ∧ numberOfSubscriptions (numberOfSubscriptions_next value this) = value
  ∧ numberOfSubscriptions (advance delay this) = numberOfSubscriptions this
  ∧ socketCloseCalls (advance delay this)
    = (socketCloseCalls this
       + length (filter (λ tm, (due tm ≤ now this + delay)%Z) (timers this)))%nat
  ∧ timers (advance delay this)
    = filter (λ tm, ¬ due tm ≤ now this + delay) (timers this).
Proof.
  split; [|split].
  - unfold numberOfSubscriptions_next. by case_bool_decide.
  - unfold numberOfSubscriptions_next. by case_bool_decide.
  - unfold advance.
    pose proof (fire_all_counts
                  (filter (λ tm, due tm ≤ now this + delay) (timers this))
                  (withTimers (now this + delay)
                     (filter (λ tm, ¬ due tm ≤ now this + delay) (timers this))
                     (nextHandle this) this)) as [Hn Hc].
    split; [exact Hn|]. split; [exact Hc|].
    by rewrite fire_all_timers.
Qed.

Lemma terminal_notification_counts n this subject :
  _atomUpdateSubjects this !! subscriberId n = Some subject →
  isTerminal (value n) = true →
  ∃ later,
    _onAtomSubmissionStateUpdate n this = Ok later
    ∧ numberOfSubscriptions later = numberOfSubscriptions this - 1.
Proof.
  intros Hsub Hterminal. unfold _onAtomSubmissionStateUpdate.
  rewrite (isTerminal_not_isNonTerminal _ Hterminal), Hsub.
  unfold isTerminal in Hterminal.
  case_bool_decide; simpl in Hterminal.
  - eexists. split; [done|]. by rewrite numberOfSubscriptions_next_count.
  - rewrite Hterminal. eexists. split; [done|].
    by rewrite numberOfSubscriptions_next_count.
Qed.

(** C7, as stated, fails: the submission of the scenario, whose call
    succeeded, is notified STORED twice, and the count goes down twice
    for this one submission (from 2 to 0). *)
Lemma repeated_terminal_decrements_twice :
  ∃ after,
    deliver [storedNotification; storedNotification] SubmitScenario.succeeded
      = Ok after
    ∧ ¬ (numberOfSubscriptions after
         = numberOfSubscriptions SubmitScenario.succeeded - 1)
    ∧ numberOfSubscriptions after
      = numberOfSubscriptions SubmitScenario.succeeded - 2.
Proof.
  eexists. split; [reflexivity|]. split; [|reflexivity].
  vm_compute. discriminate.
Qed.

(** C7, amended. On a live submission stream, a run of SUBMITTING /
    SUBMITTED notifications followed by one terminal notification
    (STORED, or COLLISION, ILLEGAL_STATE, UNSUITABLE_PEER,
    VALIDATION_ERROR) is handled without a throw; the non-terminal ones
    leave the count as it is and are forwarded to the stream in order;
    the terminal one brings the count down by exactly 1 and ends the
    stream, with STORED and a completion, or with the error
    "<CODE>: <message>". Every terminal notification that follows for
    the same submission brings the count down by 1 again. *)
Theorem submission_notifications (this : t) (id : nat)
    (subject : Rx.subject string)
    (pre : list AtomSubmissionStateUpdateNotification)
    (terminal : AtomSubmissionStateUpdateNotification)
    (Hsubject : _atomUpdateSubjects this !! id = Some subject)
    (Hlive : Rx.isStopped subject = false)
    (Hpre : Forall (λ n, subscriberId n = id ∧ isNonTerminal (value n) = true) pre)
    (Hid : subscriberId terminal = id)
    (Hterminal : isTerminal (value terminal) = true) :
  ∃ middle after subject',
    deliver pre this = Ok middle
    ∧ numberOfSubscriptions middle = numberOfSubscriptions this
    ∧ deliver (pre ++ [terminal]) this = Ok after
    ∧ numberOfSubscriptions after = numberOfSubscriptions this - 1
    ∧ _atomUpdateSubjects after !! id = Some subject'
    ∧ Rx.delivered subject'
      = Rx.delivered subject ++ (Rx.Next ∘ value <$> pre) ++ terminalDelivery terminal
    ∧ Rx.isStopped subject' = true
    ∧ ∀ again, subscriberId again = id → isTerminal (value again) = true →
        ∃ later,
          _onAtomSubmissionStateUpdate again after = Ok later
          ∧ numberOfSubscriptions later = numberOfSubscriptions after - 1.
Proof.
  destruct (deliver_nonTerminal pre this id subject Hsubject Hlive Hpre)
    as (middle & subject1 & Hrun & Hcount & _ & Hsub1 & Hdel1 & Hlive1).
  destruct (deliver_terminal terminal middle id subject1 Hsub1 Hlive1 Hid Hterminal)
    as (after & subject' & Hrun' & Hcount' & Hsub' & Hdel' & Hstopped).
  exists middle, after, subject'.
  rewrite deliver_app, Hrun, Hrun', Hcount', Hcount, Hdel', Hdel1, <- app_assoc.
  repeat split; try done.
  intros again Hagain Hterminal'.
  rewrite <- Hagain in Hsub'.
  destruct (terminal_notification_counts again after subject' Hsub' Hterminal')
    as (later & Hlater & Hcount'').
  exists later. split; [done|]. by rewrite Hcount'', Hcount', Hcount.
Qed.

(** C7, amended, at the submission whose call succeeded, which then
    receives SUBMITTING and the terminal failure COLLISION with message
    "dup". *)
Lemma submission_notifications_witness :
  ∃ middle after subject',
    deliver [{| subscriberId := 2; value := "SUBMITTING"; message := None |}]
      SubmitScenario.succeeded = Ok middle
    ∧ numberOfSubscriptions middle = numberOfSubscriptions SubmitScenario.succeeded
    ∧ deliver [{| subscriberId := 2; value := "SUBMITTING"; message := None |};
               {| subscriberId := 2; value := "COLLISION"; message := Some "dup" |}]
        SubmitScenario.succeeded = Ok after
    ∧ numberOfSubscriptions after = numberOfSubscriptions SubmitScenario.succeeded - 1
    ∧ _atomUpdateSubjects after !! 2%nat = Some subject'
    ∧ Rx.delivered subject'
      = [Rx.Next "SUBMITTED"; Rx.Next "SUBMITTING"; Rx.Error "COLLISION: dup"]
    ∧ Rx.isStopped subject' = true
    ∧ ∀ again, subscriberId again = 2%nat → isTerminal (value again) = true →
        ∃ later,
          _onAtomSubmissionStateUpdate again after = Ok later
          ∧ numberOfSubscriptions later = numberOfSubscriptions after - 1.
Proof.
  apply (submission_notifications SubmitScenario.succeeded 2
           {| Rx.value := "SUBMITTED"; Rx.delivered := [Rx.Next "SUBMITTED"];
              Rx.isStopped := false |}
           [{| subscriberId := 2; value := "SUBMITTING"; message := None |}]
           {| subscriberId := 2; value := "COLLISION"; message := Some "dup" |}).
  - reflexivity.
  - reflexivity.
  - apply Forall_cons; split; [split; reflexivity|]. apply Forall_nil; exact I.
  - reflexivity.
  - reflexivity.
Defined.

(** C8, as stated, fails: when the call of a submission fails, the
    socket is not closed. *)
Lemma failed_submission_keeps_socket :
  _atomUpdateSubjects SubmitScenario.failed !! 2%nat
    = Some {| Rx.value := "CREATED"; Rx.delivered := [Rx.Error "boom"];
              Rx.isStopped := true |}
  ∧ ¬ (socketCloseCalls Node.create < socketCloseCalls SubmitScenario.failed)%nat.
Proof. split; [reflexivity|]. vm_compute. lia. Qed.

(** C8, amended. The state stream of [submitAtom] starts at CREATED,
    with a timeout of 5000 ms pending. When the call succeeds the
    timeout is cleared and the stream goes to SUBMITTED; when the call
    fails the timeout is cleared and the stream ends with the error of
    the call; in both cases the socket is not closed and the count goes
    up by 1. When instead the timeout expires, the socket is closed and
    the stream ends with the error "Socket timeout", the count staying
    as it is. *)
Theorem submitAtom_lifecycle (this : t) (error : string) (delay : Z)
    (Hdelay : 5000 ≤ delay)
    (Hfresh : Forall (λ tm, callback tm ≠ SubmitTimeout (S (lastSubscriberId this)))
                (timers this)) :
  let submitted := (submitAtom this).1.1 in
  let id := (submitAtom this).1.2 in
  let timeout := (submitAtom this).2 in
  let succeeded := submitAtom_settled id timeout (Ok ()) submitted in
  let failed := submitAtom_settled id timeout (Throw error) submitted in
  let expired := advance delay submitted in
  (_atomUpdateSubjects submitted !! id = Some (Rx.create "CREATED")
   ∧ timers submitted
     = timers this ++ [{| handle := timeout; due := now this + 5000;
                          callback := SubmitTimeout id |}])
  ∧ (_atomUpdateSubjects succeeded !! id
       = Some {| Rx.value := "SUBMITTED"; Rx.delivered := [Rx.Next "SUBMITTED"];
                 Rx.isStopped := false |}
     ∧ Forall (λ tm, handle tm ≠ timeout) (timers succeeded)
     ∧ socketCloseCalls succeeded = socketCloseCalls this
     ∧ numberOfSubscriptions succeeded = numberOfSubscriptions this + 1)
  ∧ (_atomUpdateSubjects failed !! id
       = Some {| Rx.value := "CREATED"; Rx.delivered := [Rx.Error error];
                 Rx.isStopped := true |}
     ∧ Forall (λ tm, handle tm ≠ timeout) (timers failed)
     ∧ socketCloseCalls failed = socketCloseCalls this
     ∧ numberOfSubscriptions failed = numberOfSubscriptions this + 1)
  ∧ (_atomUpdateSubjects expired !! id
       = Some {| Rx.value := "CREATED"; Rx.delivered := [Rx.Error "Socket timeout"];
                 Rx.isStopped := true |}
     ∧ (socketCloseCalls this < socketCloseCalls expired)%nat
     ∧ numberOfSubscriptions expired = numberOfSubscriptions this).
Proof.
  simpl.
  assert (∀ f v, Forall (λ tm, handle tm ≠ nextHandle this)
            (timers (numberOfSubscriptions_next v
               (onAtomStateSubject (S (lastSubscriberId this)) f
                  (clearTimeout (nextHandle this) (submitAtom this).1.1)))))
    as Hcleared.
  { intros f v. unfold numberOfSubscriptions_next.
    case_bool_decide; simpl.
    - apply Forall_app; split.
      + apply Forall_forall. intros tm Htm. by apply list_elem_of_filter in Htm as [? _].
      + apply Forall_cons; split; [simpl; lia|]. apply Forall_nil; exact I.
    - apply Forall_forall. intros tm Htm. by apply list_elem_of_filter in Htm as [? _]. }
  split; [|split; [|split]].
  - split; [apply lookup_insert_eq|done].
  - unfold submitAtom_settled, submitAtom_finally, submitAtom_then.
    rewrite numberOfSubscriptions_next_subjects, numberOfSubscriptions_next_closes,
      numberOfSubscriptions_next_count, onAtomStateSubject_lookup.
    split; [simpl; by rewrite lookup_insert_eq|].
    split; [apply Hcleared|done].
  - unfold submitAtom_settled, submitAtom_finally, submitAtom_catch.
    rewrite numberOfSubscriptions_next_subjects, numberOfSubscriptions_next_closes,
      numberOfSubscriptions_next_count, onAtomStateSubject_lookup.
    split; [simpl; by rewrite lookup_insert_eq|].
    split; [apply Hcleared|done].
  - unfold advance. simpl.
    rewrite filter_app, filter_cons_True, filter_nil by (simpl; lia).
    rewrite fold_left_app. simpl.
    set (due_before := filter (λ tm, due tm ≤ now this + delay) (timers this)).
    set (base := withTimers _ _ _ _).
    pose proof (fire_all_counts due_before base) as [Hcount Hcloses].
    simpl in Hcount, Hcloses.
    rewrite lookup_alter_eq, Hcount, Hcloses.
    rewrite fire_all_other_subject.
    + simpl. rewrite lookup_insert_eq. split; [done|]. split; [lia|done].
    + apply Forall_forall. intros tm Htm.
      apply list_elem_of_filter in Htm as [_ Htm].
      by apply (proj1 (Forall_forall _ _) Hfresh).
Qed.

(** C8, amended, at a submission on a new connection, with the error
    "boom" for the call and the time going 5000 ms ahead. *)
Lemma submitAtom_lifecycle_witness :
  _atomUpdateSubjects SubmitScenario.failed !! 2%nat
    = Some {| Rx.value := "CREATED"; Rx.delivered := [Rx.Error "boom"];
              Rx.isStopped := true |}
  ∧ socketCloseCalls SubmitScenario.failed = socketCloseCalls Node.create
  ∧ _atomUpdateSubjects (advance 5000 SubmitScenario.submitted) !! 2%nat
    = Some {| Rx.value := "CREATED"; Rx.delivered := [Rx.Error "Socket timeout"];
              Rx.isStopped := true |}
  ∧ (socketCloseCalls Node.create
     < socketCloseCalls (advance 5000 SubmitScenario.submitted))%nat.
Proof.
  assert (5000 ≤ 5000) as Hdelay by lia.
  assert (Forall (λ tm, callback tm ≠ SubmitTimeout (S (lastSubscriberId Node.create)))
            (timers Node.create)) as Hfresh by (apply Forall_nil; exact I).
  destruct (submitAtom_lifecycle Node.create "boom" 5000 Hdelay Hfresh)
    as (_ & _ & (Hf & _ & Hc & _) & (He & Hce & _)).
  split; [exact Hf|]. split; [exact Hc|]. split; [exact He|exact Hce].
Defined.

End NodeFacts.

(** * Properties of the cache account system *)

Section CacheFacts.

Import RadixCacheAccountSystem.

Context {P : Type} `{RadixAtomCacheProvider P}.

Lemma processAtomUpdate_with_provider (atomUpdate : RadixAtomUpdate)
    (keyPair : string) (cache : P) :
  processAtomUpdate atomUpdate (create keyPair (Some cache))
  = Ok (create keyPair
          (Some (if bool_decide (action atomUpdate = "STORE")
                 then storeAtom (atom atomUpdate) cache
                 else if bool_decide (action atomUpdate = "DELETE")
                 then deleteAtom (atom atomUpdate) cache
                 else cache))).
Proof.
  unfold processAtomUpdate, create. simpl. by repeat case_bool_decide.
Qed.

(** With the provider that keeps the atoms in memory, a stored atom is
    found under its hid and a deleted one is not. *)
Lemma memoryProvider_store_delete (a : RadixAtom) (cache : gmap string RadixAtom) :
  storeAtom a cache !! hid a = Some a ∧ deleteAtom a cache !! hid a = None.
Proof. split; [apply lookup_insert_eq|apply lookup_delete_eq]. Qed.

(** C9. Without a cache provider [processAtomUpdate] returns with the
    system as it was, whatever the update, but [loadAtoms] throws: it
    calls [getAtoms] on the provider that is not there. With a provider,
    a STORE update calls its [storeAtom] and a DELETE update its
    [deleteAtom] on the atom, and [loadAtoms] returns its [getAtoms]. *)
Theorem loadAtoms_without_provider (atomUpdate : RadixAtomUpdate)
    (keyPair : string) (cache : P) :
  processAtomUpdate atomUpdate (create keyPair (None : option P))
    = Ok (create keyPair None)
  ∧ loadAtoms (create keyPair (None : option P)) = Throw "TypeError"
  ∧ processAtomUpdate (Scenario.update "STORE" (atom atomUpdate))
      (create keyPair (Some cache))
    = Ok (create keyPair (Some (storeAtom (atom atomUpdate) cache)))
  ∧ processAtomUpdate (Scenario.update "DELETE" (atom atomUpdate))
      (create keyPair (Some cache))
    = Ok (create keyPair (Some (deleteAtom (atom atomUpdate) cache)))
  ∧ loadAtoms (create keyPair (Some cache)) = Ok (getAtoms keyPair cache).
Proof. repeat split. Qed.

End CacheFacts.

(** * Further properties of the transfer account system *)

Section TransferFurther.

Import RadixTransferAccountSystem.

(** *** What the particle loops do to the transaction *)

Lemma storeConsumable_header me c st :
  header (ls_transaction (storeConsumable me c st)) = header (ls_transaction st).
Proof.
  destruct c as [sp p]. unfold storeConsumable.
  destruct (bool_decide (getAddress p = me)), (instanceofRadixFeeParticle p),
    sp; done.
Qed.

Lemma deleteConsumable_header me c st :
  header (ls_transaction (deleteConsumable me c st)) = header (ls_transaction st).
Proof.
  destruct c as [sp p]. unfold deleteConsumable.
  destruct (bool_decide (getAddress p = me)), (instanceofRadixFeeParticle p),
    sp; done.
Qed.

Lemma forEachConsumable_header body cs st :
  (∀ c st, header (ls_transaction (body c st)) = header (ls_transaction st)) →
  header (ls_transaction (forEachConsumable body cs st)) = header (ls_transaction st).
Proof.
  intros Hbody. revert st. unfold forEachConsumable.
  induction cs as [|c cs IH]; intros st; simpl; [done|].
  by rewrite IH, Hbody.
Qed.

Lemma storeConsumable_amount me c st k :
  amountOf (tx_balance (ls_transaction (storeConsumable me c st))) k
  = amountOf (tx_balance (ls_transaction st)) k
    + (if counted me c.2 && bool_decide (getTokenClassReference c.2 = k)
       then storeQuantity c else 0).
Proof.
  destruct c as [sp p]. unfold storeConsumable, counted, storeQuantity. simpl.
  destruct (bool_decide (getAddress p = me)), (instanceofRadixFeeParticle p);
    simpl; try lia.
  unfold amountOf at 1.
  destruct sp; simpl; rewrite lookup_iaddAt_initBN;
    case_decide; case_bool_decide; try done; simpl; unfold amountOf;
    subst; lia.
Qed.

Lemma deleteConsumable_amount me c st k :
  amountOf (tx_balance (ls_transaction (deleteConsumable me c st))) k
  = amountOf (tx_balance (ls_transaction st)) k
    + (if counted me c.2 && bool_decide (getTokenClassReference c.2 = k)
       then deleteQuantity c else 0).
Proof.
  destruct c as [sp p]. unfold deleteConsumable, counted, deleteQuantity. simpl.
  destruct (bool_decide (getAddress p = me)), (instanceofRadixFeeParticle p);
    simpl; try lia.
  unfold amountOf at 1.
  destruct sp; simpl; rewrite lookup_iaddAt_initBN;
    case_decide; case_bool_decide; try done; simpl; unfold amountOf;
    subst; lia.
Qed.

Lemma forEachConsumable_amount body quantity me cs st k :
  (∀ c st,
     amountOf (tx_balance (ls_transaction (body c st))) k
     = amountOf (tx_balance (ls_transaction st)) k
       + (if counted me c.2 && bool_decide (getTokenClassReference c.2 = k)
          then quantity c else 0)) →
  amountOf (tx_balance (ls_transaction (forEachConsumable body cs st))) k
  = amountOf (tx_balance (ls_transaction st)) k + sumQuantities quantity me k cs.
Proof.
  intros Hbody. revert st. unfold forEachConsumable.
  induction cs as [|c cs IH]; intros st; simpl; [lia|].
  rewrite IH, Hbody.
  destruct (counted me c.2 && bool_decide (getTokenClassReference c.2 = k)); lia.
Qed.

Lemma amountOf_subFromBalance txBalance bal k :
  amountOf (subFromBalance txBalance bal) k = amountOf bal k - amountOf txBalance k.
Proof.
  unfold amountOf at 1 3. rewrite lookup_subFromBalance.
  destruct (txBalance !! k); simpl; [done|]. unfold amountOf. lia.
Qed.

Lemma sumQuantities_delete_signed me k cs :
  sumQuantities deleteQuantity me k cs = - sumQuantities signedAmount me k cs.
Proof.
  induction cs as [|[sp p] cs IH]; simpl; [done|].
  destruct (counted me p && bool_decide (getTokenClassReference p = k)); [|done].
  rewrite IH. unfold deleteQuantity, signedAmount. destruct sp; simpl; lia.
Qed.

Lemma elem_of_foreignAddresses_cons me c cs a :
  a ∈ foreignAddresses me (c :: cs)
  ↔ (getAddress c.2 ≠ me ∧ instanceofRadixFeeParticle c.2 = false
     ∧ getAddress c.2 = a)
    ∨ a ∈ foreignAddresses me cs.
Proof.
  unfold foreignAddresses. simpl.
  case_bool_decide; destruct (instanceofRadixFeeParticle c.2); simpl;
    rewrite ?elem_of_cons; naive_solver.
Qed.

Lemma storeConsumable_participants me c st a :
  tx_participants (ls_transaction (storeConsumable me c st)) !! a
  = if decide (a ∈ foreignAddresses me [c]) then Some a
    else tx_participants (ls_transaction st) !! a.
Proof.
  destruct c as [sp p]. unfold storeConsumable, foreignAddresses. simpl.
  case_bool_decide; destruct (instanceofRadixFeeParticle p); simpl.
  - done.
  - by destruct sp.
  - done.
  - rewrite lookup_insert. case_decide; subst.
    + rewrite decide_True; [done|]. apply elem_of_cons; by left.
    + rewrite decide_False; [done|].
      intros [?|Hnil]%elem_of_cons; [done|]. by apply elem_of_nil in Hnil.
Qed.

Lemma storeLoop_participants me cs : ∀ st a,
  tx_participants (ls_transaction (forEachConsumable (storeConsumable me) cs st)) !! a
  = if decide (a ∈ foreignAddresses me cs) then Some a
    else tx_participants (ls_transaction st) !! a.
Proof.
  unfold forEachConsumable.
  induction cs as [|c cs IH]; intros st a; simpl fold_left.
  - case_decide as Hin; [by apply elem_of_nil in Hin|done].
  - rewrite IH, storeConsumable_participants.
    pose proof (elem_of_foreignAddresses_cons me c cs a) as Hcons.
    pose proof (elem_of_foreignAddresses_cons me c [] a) as Hone.
    repeat case_decide; try done.
    + exfalso. naive_solver.
    + exfalso. apply Hone in H0 as [?|Hnil]; [naive_solver|].
      by apply elem_of_nil in Hnil.
    + exfalso. apply Hcons in H1 as [?|?]; [|done]. apply H0, Hone. by left.
Qed.

Lemma newTransaction_spec atomUpdate processed :
  tx_balance (newTransaction atomUpdate processed) = ∅
  ∧ tx_participants (newTransaction atomUpdate processed) = ∅
  ∧ header (newTransaction atomUpdate processed)
    = (hid (atom atomUpdate), 0, getTimestamp (atom atomUpdate), messageOf processed).
Proof.
  unfold newTransaction, messageOf, header.
  destruct (decryptedData processed) as [[[] ?]|]; done.
Qed.

Lemma processAtomUpdate_outcome_store atomUpdate processed this :
  action atomUpdate = "STORE" →
  containsParticle (atom atomUpdate) = true →
  transactions this !! hid (atom atomUpdate) = None →
  processedData atomUpdate = Some processed →
  processAtomUpdate_outcome atomUpdate this = Ok (processAtomUpdate atomUpdate this).
Proof.
  intros Hs Hc Hf Hp. unfold processAtomUpdate_outcome, processAtomUpdate.
  rewrite Hc, Hs. simpl. unfold processStoreAtom_outcome. by rewrite Hf, Hp.
Qed.

(** *** A STORE that is processed *)

(** X1. A STORE of an atom that holds a token particle and is not yet
    stored, by an update that has its [processedData], returns and puts
    one transaction under the hid of the atom, with that hid, a fee of
    0, the timestamp of the atom and the decrypted message (none when
    there is no decrypted data or it cannot be decrypted); the other
    transactions stay, and each subject receives exactly one value: the
    STORE update of that transaction and the new balance. *)
Theorem store_records_transaction (atomUpdate : RadixAtomUpdate)
    (processed : RadixProcessedData) (this : t)
    (Hstore : action atomUpdate = "STORE")
    (Htokens : containsParticle (atom atomUpdate) = true)
    (Hfresh : transactions this !! hid (atom atomUpdate) = None)
    (Hprocessed : processedData atomUpdate = Some processed) :
  let after := processAtomUpdate atomUpdate this in
  processAtomUpdate_outcome atomUpdate this = Ok after
  ∧ ∃ transaction,
      transactions after !! hid (atom atomUpdate) = Some transaction
      ∧ header transaction
        = (hid (atom atomUpdate), 0, getTimestamp (atom atomUpdate),
           messageOf processed)
      ∧ (∀ h, h ≠ hid (atom atomUpdate) →
              transactions after !! h = transactions this !! h)
      ∧ transactionSubject after
        = transactionSubject this
          ++ [{| tu_action := "STORE"; tu_hid := hid (atom atomUpdate);
                 tu_transaction := transaction |}]
      ∧ balanceSubject after = balanceSubject this ++ [balance after].
Proof.
  simpl. split; [by eapply processAtomUpdate_outcome_store|].
  rewrite processAtomUpdate_store by done.
  unfold processStoreAtom. rewrite Hfresh, Hprocessed. simpl.
  eexists. split; [apply lookup_insert_eq|].
  split; [|split; [|done]].
  - rewrite forEachConsumable_header by apply storeConsumable_header.
    apply newTransaction_spec.
  - intros h Hh. by rewrite lookup_insert_ne.
Qed.

Lemma store_records_transaction_witness :
  processAtomUpdate_outcome (Scenario.update "STORE" Scenario.a2) Scenario.afterA
    = Ok Scenario.afterB
  ∧ ∃ transaction,
      transactions Scenario.afterB !! "a2" = Some transaction
      ∧ header transaction = ("a2", 0, 2, "")
      ∧ (∀ h, h ≠ "a2" → transactions Scenario.afterB !! h
                          = transactions Scenario.afterA !! h)
      ∧ transactionSubject Scenario.afterB
        = transactionSubject Scenario.afterA
          ++ [{| tu_action := "STORE"; tu_hid := "a2";
                 tu_transaction := transaction |}]
      ∧ balanceSubject Scenario.afterB
        = balanceSubject Scenario.afterA ++ [balance Scenario.afterB].
Proof.
  apply (store_records_transaction (Scenario.update "STORE" Scenario.a2)
           {| decryptedData := None |} Scenario.afterA); reflexivity.
Defined.

(** X2. The participants of the transaction such a STORE records are
    exactly the addresses of the token particles of the atom that are
    not owned by the account and are not fee particles, each under its
    own string. *)
Theorem store_records_participants (atomUpdate : RadixAtomUpdate)
    (processed : RadixProcessedData) (this : t)
    (Hstore : action atomUpdate = "STORE")
    (Htokens : containsParticle (atom atomUpdate) = true)
    (Hfresh : transactions this !! hid (atom atomUpdate) = None)
    (Hprocessed : processedData atomUpdate = Some processed) :
  ∃ transaction,
    transactions (processAtomUpdate atomUpdate this) !! hid (atom atomUpdate)
      = Some transaction
    ∧ ∀ a, tx_participants transaction !! a
           = if decide (a ∈ foreignAddresses (address this)
                              (getSpunParticlesOfType (atom atomUpdate)))
             then Some a else None.
Proof.
  rewrite processAtomUpdate_store by done.
  unfold processStoreAtom. rewrite Hfresh, Hprocessed. simpl.
  eexists. split; [apply lookup_insert_eq|].
  intros a. rewrite storeLoop_participants. simpl.
  destruct (newTransaction_spec atomUpdate processed) as (_ & -> & _).
  by rewrite lookup_empty.
Qed.

Lemma store_records_participants_witness :
  ∃ transaction,
    transactions Scenario.afterB !! "a2" = Some transaction
    ∧ ∀ a, tx_participants transaction !! a
           = if decide (a ∈ [Scenario.Y]) then Some a else None.
Proof.
  apply (store_records_participants (Scenario.update "STORE" Scenario.a2)
           {| decryptedData := None |} Scenario.afterA); reflexivity.
Defined.

(** X3. Such a STORE changes the balance of every token class by the sum,
    over the owned non-fee particles of the atom in that class, of the
    quantity of its loop: 1 + amount for an UP-spin particle and
    1 - amount for a DOWN-spin one. *)
Theorem store_balance (atomUpdate : RadixAtomUpdate)
    (processed : RadixProcessedData) (this : t) (k : string)
    (Hstore : action atomUpdate = "STORE")
    (Htokens : containsParticle (atom atomUpdate) = true)
    (Hfresh : transactions this !! hid (atom atomUpdate) = None)
    (Hprocessed : processedData atomUpdate = Some processed) :
  amountOf (balance (processAtomUpdate atomUpdate this)) k
  = amountOf (balance this) k
    + sumQuantities storeQuantity (address this) k
        (getSpunParticlesOfType (atom atomUpdate)).
Proof.
  rewrite processAtomUpdate_store by done.
  unfold processStoreAtom. rewrite Hfresh, Hprocessed. simpl.
  rewrite amountOf_addToBalance.
  rewrite (forEachConsumable_amount _ storeQuantity (address this))
    by (intros; apply storeConsumable_amount).
  simpl. destruct (newTransaction_spec atomUpdate processed) as (-> & _).
  unfold amountOf at 2. by rewrite lookup_empty.
Qed.

Lemma store_balance_witness :
  amountOf (balance Scenario.afterB) Scenario.T = 101 + ((1 - 100) + (1 + 30)).
Proof.
  apply (store_balance (Scenario.update "STORE" Scenario.a2)
           {| decryptedData := None |} Scenario.afterA Scenario.T); reflexivity.
Defined.

(** X4. STORE, by an update that has its [processedData], followed by
    DELETE of an atom that holds a token particle and was not yet stored
    leaves every balance at its value before the STORE plus the signed
    amounts of the owned non-fee particles of the atom in that class
    (+amount for UP, -amount for DOWN): the DELETE does not take back
    what the STORE added. *)
Theorem store_then_delete_balance (store delete : RadixAtomUpdate)
    (processed : RadixProcessedData) (this : t) (k : string)
    (Hstore : action store = "STORE")
    (Hdelete : action delete = "DELETE")
    (Hsame : atom delete = atom store)
    (Htokens : containsParticle (atom store) = true)
    (Hfresh : transactions this !! hid (atom store) = None)
    (Hprocessed : processedData store = Some processed) :
  amountOf (balance (processAtomUpdate delete (processAtomUpdate store this))) k
  = amountOf (balance this) k
    + sumQuantities signedAmount (address this) k
        (getSpunParticlesOfType (atom store)).
Proof.
  rewrite (processAtomUpdate_store store), processAtomUpdate_delete;
    [|done|by rewrite Hsame|done|done].
  unfold processStoreAtom. rewrite Hfresh, Hprocessed.
  unfold processDeleteAtom. simpl. rewrite Hsame, lookup_insert_eq. simpl.
  rewrite amountOf_subFromBalance, amountOf_addToBalance.
  rewrite (forEachConsumable_amount (deleteConsumable (address this))
             deleteQuantity (address this))
    by (intros; apply deleteConsumable_amount).
  simpl. rewrite sumQuantities_delete_signed. lia.
Qed.

Lemma store_then_delete_balance_witness :
  amountOf (balance Scenario.afterStoreDeleteA) Scenario.T = 0 + (100 + 0).
Proof.
  apply (store_then_delete_balance (Scenario.update "STORE" Scenario.a1)
           (Scenario.update "DELETE" Scenario.a1) {| decryptedData := None |}
           Scenario.initial Scenario.T);
    reflexivity.
Defined.

(** *** A STORE that throws *)

(** X19. A STORE of an atom that holds a token particle and is not yet
    stored, by an update that has no [processedData] (as the updates the
    node connection pushes), throws a TypeError and leaves the system
    exactly as it was: no transaction is recorded, no balance changes
    and nothing is pushed into the subjects. A DELETE never throws, and
    neither does a STORE of a stored atom or an update without token
    particle. *)
Theorem store_without_processedData_throws (atomUpdate : RadixAtomUpdate) (this : t)
    (Hprocessed : processedData atomUpdate = None) :
  processAtomUpdate atomUpdate this
  = (if containsParticle (atom atomUpdate)
        && bool_decide (action atomUpdate = "DELETE")
     then processDeleteAtom atomUpdate this else this)
  ∧ processAtomUpdate_outcome atomUpdate this
    = (if containsParticle (atom atomUpdate)
          && bool_decide (action atomUpdate = "STORE")
          && bool_decide (transactions this !! hid (atom atomUpdate) = None)
       then Throw "TypeError"
       else Ok (processAtomUpdate atomUpdate this)).
Proof.
  unfold processAtomUpdate_outcome, processAtomUpdate, processStoreAtom_outcome,
    processStoreAtom.
  rewrite Hprocessed.
  destruct (containsParticle (atom atomUpdate)); simpl; [|done].
  case_bool_decide as Hs; simpl.
  - rewrite Hs. simpl.
    by destruct (transactions this !! hid (atom atomUpdate)).
  - by case_bool_decide.
Qed.

(** The update the node connection pushes for the atom of scenario A. *)
Lemma store_without_processedData_throws_witness :
  let pushed := {| action := "STORE"; atom := Scenario.a1; processedData := None |} in
  processAtomUpdate pushed Scenario.initial = Scenario.initial
  ∧ processAtomUpdate_outcome pushed Scenario.initial = Throw "TypeError".
Proof.
  apply (store_without_processedData_throws
           {| action := "STORE"; atom := Scenario.a1; processedData := None |}
           Scenario.initial).
  reflexivity.
Defined.

(** *** Atoms that do not concern the account *)

Lemma storeConsumable_uncounted me c st :
  counted me c.2 = false →
  ls_unspent (storeConsumable me c st) = ls_unspent st
  ∧ ls_spent (storeConsumable me c st) = ls_spent st
  ∧ tx_balance (ls_transaction (storeConsumable me c st))
    = tx_balance (ls_transaction st).
Proof.
  destruct c as [sp p]. unfold storeConsumable, counted. simpl. intros ->.
  by destruct (negb _ && negb _).
Qed.

Lemma deleteConsumable_uncounted me c st :
  counted me c.2 = false →
  ls_unspent (deleteConsumable me c st) = ls_unspent st
  ∧ ls_spent (deleteConsumable me c st) = ls_spent st
  ∧ tx_balance (ls_transaction (deleteConsumable me c st))
    = tx_balance (ls_transaction st).
Proof.
  destruct c as [sp p]. unfold deleteConsumable, counted. simpl. intros ->.
  by destruct (negb _ && negb _).
Qed.

Lemma forEachConsumable_uncounted body me cs st :
  (∀ c st, counted me c.2 = false →
     ls_unspent (body c st) = ls_unspent st
     ∧ ls_spent (body c st) = ls_spent st
     ∧ tx_balance (ls_transaction (body c st)) = tx_balance (ls_transaction st)) →
  Forall (λ c, counted me c.2 = false) cs →
  ls_unspent (forEachConsumable body cs st) = ls_unspent st
  ∧ ls_spent (forEachConsumable body cs st) = ls_spent st
  ∧ tx_balance (ls_transaction (forEachConsumable body cs st))
    = tx_balance (ls_transaction st).
Proof.
  intros Hbody. revert st. unfold forEachConsumable.
  induction cs as [|c cs IH]; intros st Hcs; simpl; [done|].
  apply Forall_cons in Hcs as [Hc Hcs].
  destruct (IH (body c st) Hcs) as (-> & -> & ->). by apply Hbody.
Qed.

(** X5. An update whose atom has no owned non-fee token particle (all
    its token particles are fee particles or belong to other accounts)
    leaves the unspent and the spent consumables as they are, whatever
    its action, and a STORE of it leaves the balance as it is. *)
Theorem foreign_atom_moves_nothing (atomUpdate : RadixAtomUpdate) (this : t)
    (Hforeign : Forall (λ c, counted (address this) c.2 = false)
                  (getSpunParticlesOfType (atom atomUpdate))) :
  let after := processAtomUpdate atomUpdate this in
  unspentConsumables after = unspentConsumables this
  ∧ spentConsumables after = spentConsumables this
  ∧ (action atomUpdate = "STORE" → balance after = balance this).
Proof.
  simpl. unfold processAtomUpdate.
  destruct (containsParticle (atom atomUpdate)); simpl; [|done].
  case_bool_decide as Hs.
  - unfold processStoreAtom.
    destruct (transactions this !! hid (atom atomUpdate)); [done|].
    destruct (processedData atomUpdate) as [processed|]; [|done]. simpl.
    edestruct (forEachConsumable_uncounted (storeConsumable (address this)))
      as (-> & -> & ->); [intros; by apply storeConsumable_uncounted|done|].
    simpl. destruct (newTransaction_spec atomUpdate processed) as (-> & _).
    unfold addToBalance. by rewrite map_fold_empty.
  - case_bool_decide; [|done]. unfold processDeleteAtom.
    destruct (transactions this !! hid (atom atomUpdate)) as [tx|]; [|done]. simpl.
    edestruct (forEachConsumable_uncounted (deleteConsumable (address this)))
      as (-> & -> & _); [intros; by apply deleteConsumable_uncounted|done|].
    done.
Qed.

Lemma foreign_atom_moves_nothing_witness :
  let after := processAtomUpdate (Scenario.update "STORE" Scenario.a4) Scenario.afterA in
  unspentConsumables after = unspentConsumables Scenario.afterA
  ∧ spentConsumables after = spentConsumables Scenario.afterA
  ∧ balance after = balance Scenario.afterA.
Proof.
  destruct (foreign_atom_moves_nothing (Scenario.update "STORE" Scenario.a4)
              Scenario.afterA) as (Hu & Hs & Hb).
  - apply Forall_cons; split; [reflexivity|].
    apply Forall_cons; split; [reflexivity|]. apply Forall_nil; exact I.
  - split; [exact Hu|]. split; [exact Hs|]. apply Hb. reflexivity.
Defined.

(** *** Spent particles under STORE *)

Lemma storeConsumable_keeps_spent me c st id :
  is_Some (ls_spent st !! id) → is_Some (ls_spent (storeConsumable me c st) !! id).
Proof.
  destruct c as [sp p]. unfold storeConsumable. intros Hid.
  destruct (bool_decide (getAddress p = me)), (instanceofRadixFeeParticle p);
    simpl; try done.
  destruct sp; simpl; [done|].
  rewrite lookup_insert. by case_decide.
Qed.

Lemma storeLoop_keeps_spent me cs st id :
  is_Some (ls_spent st !! id) →
  is_Some (ls_spent (forEachConsumable (storeConsumable me) cs st) !! id).
Proof.
  revert st. unfold forEachConsumable.
  induction cs as [|c cs IH]; intros st Hid; simpl; [done|].
  by apply IH, storeConsumable_keeps_spent.
Qed.

(** X6. A STORE never takes a particle out of the spent consumables:
    an id that is spent before a STORE update is spent after it, and,
    the two maps being disjoint, is not among the unspent ones, even
    when the atom holds an UP-spin particle of that id. *)
Theorem store_keeps_spent (atomUpdate : RadixAtomUpdate) (this : t) (id : string)
    (Hstore : action atomUpdate = "STORE")
    (Hdisjoint : disjointConsumables this)
    (Hspent : is_Some (spentConsumables this !! id)) :
  let after := processAtomUpdate atomUpdate this in
  is_Some (spentConsumables after !! id)
  ∧ unspentConsumables after !! id = None.
Proof.
  simpl. apply disjointConsumables_spec in Hdisjoint.
  assert (is_Some (spentConsumables (processAtomUpdate atomUpdate this) !! id)
          ∧ unspentConsumables (processAtomUpdate atomUpdate this)
              ##ₘ spentConsumables (processAtomUpdate atomUpdate this))
    as [[p Hp] Hd].
  { unfold processAtomUpdate.
    destruct (containsParticle (atom atomUpdate)); simpl; [|done].
    rewrite Hstore. simpl. unfold processStoreAtom.
    destruct (transactions this !! hid (atom atomUpdate)); [done|].
    destruct (processedData atomUpdate) as [processed|]; [|done]. simpl.
    split; [by apply storeLoop_keeps_spent|].
    apply forEachConsumable_disjoint; [apply storeConsumable_disjoint|done]. }
  split; [by exists p|].
  by apply (map_disjoint_Some_r _ _ _ _ Hd Hp).
Qed.

(** After scenario B, [p1] is spent; an atom that creates [p1] again
    does not make it unspent. *)
Lemma store_keeps_spent_witness :
  let after := processAtomUpdate (Scenario.update "STORE" a5) Scenario.afterB in
  is_Some (spentConsumables after !! "p1") ∧ unspentConsumables after !! "p1" = None.
Proof.
  apply (store_keeps_spent (Scenario.update "STORE" a5) Scenario.afterB "p1").
  - reflexivity.
  - reflexivity.
  - vm_compute. eauto.
Defined.

(** *** Every update is absorbed the second time *)

(** X7. Processing the same update twice in a row gives the state that
    processing it once gives, for every update and every state: the
    second STORE finds the hid stored and the second DELETE finds it
    gone, so that nothing is counted or pushed twice. *)
Theorem processAtomUpdate_twice (atomUpdate : RadixAtomUpdate) (this : t) :
  processAtomUpdate atomUpdate (processAtomUpdate atomUpdate this)
  = processAtomUpdate atomUpdate this.
Proof.
  unfold processAtomUpdate.
  destruct (containsParticle (atom atomUpdate)); simpl; [|done].
  case_bool_decide as Hs.
  - unfold processStoreAtom at 2 3.
    destruct (transactions this !! hid (atom atomUpdate)) eqn:E.
    + unfold processStoreAtom. by rewrite E.
    + destruct (processedData atomUpdate) as [processed|] eqn:Ep.
      * unfold processStoreAtom at 1. simpl. by rewrite lookup_insert_eq.
      * unfold processStoreAtom. by rewrite E, Ep.
  - case_bool_decide as Hd; [|done].
    unfold processDeleteAtom at 2 3.
    destruct (transactions this !! hid (atom atomUpdate)) eqn:E.
    + unfold processDeleteAtom at 1. simpl. by rewrite lookup_delete_eq.
    + unfold processDeleteAtom. by rewrite E.
Qed.

(** *** What holds in every state of a system *)

(** X8. In every state a transfer system reaches, the address is the
    one it was created with and every stored transaction is stored under
    its own hid. *)
Theorem transactions_keyed_by_hid (me : RadixAddress) (this : t)
    (Hreach : reachable me this) :
  address this = me
  ∧ ∀ h transaction, transactions this !! h = Some transaction →
                     tx_hid transaction = h.
Proof.
  induction Hreach as [|atomUpdate this Hreach [IHa IHt]]; [done|].
  destruct (processAtomUpdate_cases atomUpdate this) as [-> | [-> | ->]]; [done| |].
  - unfold processStoreAtom.
    destruct (transactions this !! hid (atom atomUpdate)) eqn:E; [done|].
    destruct (processedData atomUpdate) as [processed|]; [|done]. simpl.
    split; [done|]. intros h tx. rewrite lookup_insert.
    case_decide as Hh; [|by apply IHt]. intros [= <-]. subst h.
    pose proof (forEachConsumable_header (storeConsumable (address this))
                  (getSpunParticlesOfType (atom atomUpdate))
                  {| ls_unspent := unspentConsumables this;
                     ls_spent := spentConsumables this;
                     ls_transaction := newTransaction atomUpdate processed |}
                  (storeConsumable_header (address this))) as Hh.
    destruct (newTransaction_spec atomUpdate processed) as (_ & _ & Hnew).
    simpl in Hh. rewrite Hnew in Hh. unfold header in Hh. congruence.
  - unfold processDeleteAtom.
    destruct (transactions this !! hid (atom atomUpdate)) eqn:E; [|done]. simpl.
    split; [done|]. intros h tx. rewrite lookup_delete.
    case_decide; [done|]. by apply IHt.
Qed.

Lemma transactions_keyed_by_hid_witness :
  address Scenario.afterB = Scenario.X
  ∧ ∀ h transaction, transactions Scenario.afterB !! h = Some transaction →
                     tx_hid transaction = h.
Proof.
  apply (transactions_keyed_by_hid Scenario.X Scenario.afterB).
  apply reachable_update, reachable_update, reachable_create.
Defined.

(** X9. In every state a transfer system reaches, the two subjects have
    received the same number of values, and the value the balance
    subject holds is the balance of the account. *)
Theorem balance_subject_is_current (me : RadixAddress) (this : t)
    (Hreach : reachable me this) :
  length (transactionSubject this) = length (balanceSubject this)
  ∧ balanceSubjectValue this = balance this.
Proof.
  induction Hreach as [|atomUpdate this Hreach [IHl IHv]]; [done|].
  unfold balanceSubjectValue in *.
  destruct (processAtomUpdate_cases atomUpdate this) as [-> | [-> | ->]]; [done| |].
  - unfold processStoreAtom.
    destruct (transactions this !! hid (atom atomUpdate)); [done|].
    destruct (processedData atomUpdate) as [processed|]; [|done]. simpl.
    rewrite !length_app, last_snoc. simpl. split; [lia|done].
  - unfold processDeleteAtom.
    destruct (transactions this !! hid (atom atomUpdate)); [|done]. simpl.
    rewrite !length_app, last_snoc. simpl. split; [lia|done].
Qed.

Lemma balance_subject_is_current_witness :
  length (transactionSubject Scenario.afterStoreDeleteA)
    = length (balanceSubject Scenario.afterStoreDeleteA)
  ∧ balanceSubjectValue Scenario.afterStoreDeleteA
    = balance Scenario.afterStoreDeleteA.
Proof.
  apply (balance_subject_is_current Scenario.X Scenario.afterStoreDeleteA).
  apply reachable_update, reachable_update, reachable_create.
Defined.

End TransferFurther.

(** * Further properties of the node connection *)

Section NodeFurther.

Import RadixNodeConnection.

(** *** Subscriber ids and timer handles are allocated once *)

Lemma extends_refl this : extends this this.
Proof. unfold extends. repeat split; auto. Qed.

Lemma extends_trans this middle after :
  extends this middle → extends middle after → extends this after.
Proof.
  intros (Hl & Hh & Hs & Ha & Ht) (Hl' & Hh' & Hs' & Ha' & Ht').
  unfold extends. split; [lia|]. split; [lia|]. split; [|split].
  - intros i Hi. destruct (Hs' i Hi) as [Hm|]; [|by right].
    destruct (Hs i Hm); [by left|right; lia].
  - intros i Hi. destruct (Ha' i Hi) as [Hm|]; [|by right].
    destruct (Ha i Hm); [by left|right; lia].
  - intros tm Htm. destruct (Ht' tm Htm) as [Hm|[Hrange Hcb]].
    + destruct (Ht tm Hm) as [|[Hrange Hcb]]; [by left|right].
      split; [lia|]. destruct (callback tm); [done|lia].
    + right. split; [lia|done].
Qed.

Lemma allocated_extends this after :
  extends this after → allocated this → allocated after.
Proof.
  intros (Hl & Hh & Hs & Ha & Ht) (Is & Ia & It).
  unfold allocated. split; [|split].
  - intros i Hi. destruct (Hs i Hi) as [Hm|]; [|done]. specialize (Is i Hm). lia.
  - intros i Hi. destruct (Ha i Hi) as [Hm|]; [|done]. specialize (Ia i Hm). lia.
  - apply Forall_forall. intros tm Htm.
    destruct (Ht tm Htm) as [Hm|[Hrange Hcb]].
    + apply (proj1 (Forall_forall _ _) It) in Hm as [Hm1 Hm2].
      split; [lia|]. destruct (callback tm); [done|lia].
    + split; [lia|done].
Qed.

(** A step that leaves the counters, the keys of both maps and the
    timers as they are. *)
Lemma extends_same this after :
  lastSubscriberId after = lastSubscriberId this →
  nextHandle after = nextHandle this →
  (∀ i, is_Some (_subscriptions after !! i) → is_Some (_subscriptions this !! i)) →
  (∀ i, is_Some (_atomUpdateSubjects after !! i) →
        is_Some (_atomUpdateSubjects this !! i)) →
  (∀ tm, tm ∈ timers after → tm ∈ timers this) →
  extends this after.
Proof.
  intros Hl Hh Hs Ha Ht. unfold extends. rewrite Hl, Hh.
  repeat split; auto.
Qed.

Lemma extends_numberOfSubscriptions_next v this :
  extends this (numberOfSubscriptions_next v this).
Proof.
  unfold numberOfSubscriptions_next. case_bool_decide; simpl.
  - unfold extends. simpl. repeat split; auto.
    intros tm [Htm|Htm]%elem_of_app; [by left|right].
    apply list_elem_of_singleton in Htm as ->. simpl. split; [lia|done].
  - by apply extends_same.
Qed.

Lemma extends_onAtomStateSubject id f this :
  extends this (onAtomStateSubject id f this).
Proof.
  apply extends_same; simpl; auto.
  intros i. by rewrite lookup_alter_is_Some.
Qed.

Lemma extends_clearTimeout h this : extends this (clearTimeout h this).
Proof.
  apply extends_same; simpl; auto.
  intros tm Htm. by apply list_elem_of_filter in Htm as [_ ?].
Qed.

Lemma extends_fire cb this : extends this (fire cb this).
Proof.
  destruct cb as [|id]; [by apply extends_same|].
  apply extends_same; simpl; auto. intros i. by rewrite lookup_alter_is_Some.
Qed.

Lemma extends_fire_all fired this :
  extends this (fold_left (λ acc tm, fire (callback tm) acc) fired this).
Proof.
  revert this. induction fired as [|tm fired IH]; intros this; simpl.
  - apply extends_refl.
  - eapply extends_trans; [apply extends_fire|apply IH].
Qed.

Lemma extends_advance delay this : extends this (advance delay this).
Proof.
  unfold advance. eapply extends_trans; [|apply extends_fire_all].
  apply extends_same; simpl; auto.
  intros tm Htm. by apply list_elem_of_filter in Htm as [_ ?].
Qed.

Lemma extends_subscribe address this : extends this (subscribe address this).1.
Proof.
  unfold extends. simpl. split; [lia|]. split; [lia|]. split; [|split]; auto.
  intros i [<-|Hi]%lookup_insert_is_Some'; [right; lia|by left].
Qed.

Lemma extends_submitAtom this : extends this (submitAtom this).1.1.
Proof.
  unfold extends. simpl. split; [lia|]. split; [lia|]. split; [|split]; auto.
  - intros i [<-|Hi]%lookup_insert_is_Some'; [right; lia|by left].
  - intros tm [Htm|Htm]%elem_of_app; [by left|right].
    apply list_elem_of_singleton in Htm as ->. simpl. split; lia.
Qed.

Lemma extends_connectionStep e this : extends this (connectionStep e this).
Proof.
  destruct e as [address|first|id error|address|address id outcome| | |
                 id timeout outcome|n|delay| |]; simpl.
  - apply extends_subscribe.
  - unfold subscribe_then. destruct first; simpl;
      [apply extends_refl|apply extends_numberOfSubscriptions_next].
  - apply extends_same; simpl; auto. intros i. by rewrite lookup_alter_is_Some.
  - by apply extends_same.
  - unfold unsubscribe_settled, unsubscribe_finally.
    eapply extends_trans; [|apply extends_numberOfSubscriptions_next].
    destruct outcome; [|apply extends_refl].
    unfold unsubscribe_then. destruct id as [i|]; [|apply extends_refl].
    destruct (_subscriptions this !! i); [|apply extends_refl].
    apply extends_same; simpl; auto. intros j. by rewrite lookup_alter_is_Some.
  - apply extends_numberOfSubscriptions_next.
  - apply extends_submitAtom.
  - unfold submitAtom_settled, submitAtom_finally.
    eapply extends_trans; [|apply extends_numberOfSubscriptions_next].
    destruct outcome; unfold submitAtom_then, submitAtom_catch;
      (eapply extends_trans; [apply extends_clearTimeout
                             |apply extends_onAtomStateSubject]).
  - unfold _onAtomSubmissionStateUpdate.
    destruct (isNonTerminal (value n)).
    { destruct (_atomUpdateSubjects this !! subscriberId n);
        [apply extends_onAtomStateSubject|apply extends_refl]. }
    case_bool_decide.
    { destruct (_atomUpdateSubjects this !! subscriberId n); [|apply extends_refl].
      eapply extends_trans; [|apply extends_numberOfSubscriptions_next].
      eapply extends_trans; apply extends_onAtomStateSubject. }
    destruct (isTerminalFailure (value n)); [|apply extends_refl].
    destruct (_atomUpdateSubjects this !! subscriberId n); [|apply extends_refl].
    eapply extends_trans; [apply extends_onAtomStateSubject
                          |apply extends_numberOfSubscriptions_next].
  - apply extends_advance.
  - by apply extends_same.
  - apply extends_same; simpl; auto; intros i; rewrite lookup_fmap;
      by rewrite fmap_is_Some.
Qed.

Lemma connectionReachable_allocated this :
  connectionReachable this → allocated this.
Proof.
  induction 1 as [|e this _ IH].
  - unfold allocated. simpl. split; [|split].
    + intros i [? Hi]. by rewrite lookup_empty in Hi.
    + intros i [? Hi]. by rewrite lookup_empty in Hi.
    + apply Forall_nil; exact I.
  - eapply allocated_extends; [apply extends_connectionStep|done].
Qed.

(** X10. On a connection, whatever has happened to it, the subscriber
    id that [subscribe] or [submitAtom] allocates next is in use by no
    subscription stream, by no submission stream and by no pending
    submission timeout, and the handle of the timeout [submitAtom] sets
    is that of no pending timer. *)
Theorem subscriber_ids_are_fresh (address : string) (this : t)
    (Hreach : connectionReachable this) :
  (subscribe address this).2 = (submitAtom this).1.2
  ∧ _subscriptions this !! (submitAtom this).1.2 = None
  ∧ _atomUpdateSubjects this !! (submitAtom this).1.2 = None
  ∧ Forall (λ tm, callback tm ≠ SubmitTimeout (submitAtom this).1.2
                  ∧ handle tm ≠ (submitAtom this).2) (timers this).
Proof.
  destruct (connectionReachable_allocated this Hreach) as (Hs & Ha & Ht).
  simpl. split; [done|]. split; [|split].
  - apply eq_None_not_Some. intros Hi. specialize (Hs _ Hi). lia.
  - apply eq_None_not_Some. intros Hi. specialize (Ha _ Hi). lia.
  - eapply Forall_impl; [exact Ht|]. intros tm [Hh Hcb]. simpl in *.
    split; [|lia]. intros Heq. rewrite Heq in Hcb. lia.
Qed.

Lemma subscriber_ids_are_fresh_witness :
  _subscriptions SubmitScenario.succeeded !! 3%nat = None
  ∧ _atomUpdateSubjects SubmitScenario.succeeded !! 3%nat = None
  ∧ Forall (λ tm, callback tm ≠ SubmitTimeout 3 ∧ handle tm ≠ 1%nat)
      (timers SubmitScenario.succeeded).
Proof.
  apply (subscriber_ids_are_fresh "address" SubmitScenario.succeeded).
  apply (connectionReachable_step (SubmitAtomSettled 2 0 (Ok ()))).
  apply (connectionReachable_step SubmitAtom).
  apply connectionReachable_create.
Defined.

(** X11. On a connection, whatever has happened to it, the [then] and
    the [catch] callback of a submission cancel the timeout of that
    submission and no other timer: the pending timers are again those
    from before [submitAtom]. *)
Theorem settled_submission_clears_own_timeout (error : string) (this : t)
    (Hreach : connectionReachable this) :
  let submitted := (submitAtom this).1.1 in
  let id := (submitAtom this).1.2 in
  let timeout := (submitAtom this).2 in
  timers (submitAtom_then id timeout submitted) = timers this
  ∧ timers (submitAtom_catch id timeout error submitted) = timers this.
Proof.
  destruct (connectionReachable_allocated this Hreach) as (_ & _ & Ht).
  assert (filter (λ tm, handle tm ≠ nextHandle this)
            (timers this ++ [{| handle := nextHandle this; due := now this + 5000;
                                callback := SubmitTimeout (S (lastSubscriberId this)) |}])
          = timers this) as Hfilter.
  { rewrite filter_app, filter_cons_False, filter_nil, app_nil_r by (simpl; auto).
    clear Hreach. induction (timers this) as [|tm tms IH]; [done|].
    apply Forall_cons in Ht as [[Hh _] Ht].
    rewrite filter_cons_True by lia. by rewrite IH. }
  simpl. by rewrite Hfilter.
Qed.

Lemma settled_submission_clears_own_timeout_witness :
  timers (submitAtom_then 2 1 (submitAtom IdleScenario.idle).1.1)
  = timers IdleScenario.idle.
Proof.
  destruct (settled_submission_clears_own_timeout "boom" IdleScenario.idle)
    as [Hthen _]; [|exact Hthen].
  apply (connectionReachable_step (UnsubscribeSettled "address" None (Throw "boom"))).
  apply connectionReachable_create.
Defined.

(** *** Notifications that find no live stream *)


(** X12. A notification whose value is none of the seven states the
    handler knows is ignored, whoever its subscriber is; a notification
    with one of these values for a subscriber id that has no submission
    stream makes the handler throw, the connection (and its count)
    staying as it was. *)
Theorem unknown_notification (n : AtomSubmissionStateUpdateNotification) (this : t)
    (Hunknown : isNonTerminal (value n) || isTerminal (value n) = false
                ∨ _atomUpdateSubjects this !! subscriberId n = None) :
  _onAtomSubmissionStateUpdate n this
  = (if isNonTerminal (value n) || isTerminal (value n)
     then Throw "TypeError" else Ok this)
  ∧ connectionStep (AtomSubmissionStateUpdate n) this = this.
Proof.
  unfold connectionStep, _onAtomSubmissionStateUpdate, isTerminal in *.
  destruct (isNonTerminal (value n)); simpl in *.
  - destruct Hunknown as [?| ->]; done.
  - case_bool_decide; simpl in *.
    + destruct Hunknown as [?| ->]; done.
    + destruct (isTerminalFailure (value n)); [|done].
      destruct Hunknown as [?| ->]; done.
Qed.

Lemma unknown_notification_witness :
  _onAtomSubmissionStateUpdate
    {| subscriberId := 7; value := "STORED"; message := None |}
    SubmitScenario.succeeded = Throw "TypeError"
  ∧ _onAtomSubmissionStateUpdate
      {| subscriberId := 2; value := "CREATED"; message := None |}
      SubmitScenario.succeeded = Ok SubmitScenario.succeeded.
Proof.
  split.
  - apply (unknown_notification
             {| subscriberId := 7; value := "STORED"; message := None |}
             SubmitScenario.succeeded). right. reflexivity.
  - apply (unknown_notification
             {| subscriberId := 2; value := "CREATED"; message := None |}
             SubmitScenario.succeeded). left. reflexivity.
Defined.






(** X15. A submission whose call succeeds and which then receives any
    run of SUBMITTING / SUBMITTED notifications followed by STORED
    leaves the count at its value before [submitAtom]; its stream has
    delivered SUBMITTED, the forwarded values, STORED and the
    completion, in this order. *)
Theorem stored_submission_restores_count (this : t)
    (pre : list AtomSubmissionStateUpdateNotification) (message : option string)
    (Hpre : Forall (λ n, subscriberId n = (submitAtom this).1.2
                         ∧ isNonTerminal (value n) = true) pre) :
  let submitted := (submitAtom this).1.1 in
  let id := (submitAtom this).1.2 in
  let timeout := (submitAtom this).2 in
  let settled := submitAtom_settled id timeout (Ok ()) submitted in
  ∃ after subject,
    deliver (pre ++ [{| subscriberId := id; value := "STORED"; message := message |}])
      settled = Ok after
    ∧ numberOfSubscriptions after = numberOfSubscriptions this
    ∧ _atomUpdateSubjects after !! id = Some subject
    ∧ Rx.delivered subject
      = Rx.Next "SUBMITTED" :: (Rx.Next ∘ value <$> pre)
        ++ [Rx.Next "STORED"; Rx.Complete]
    ∧ Rx.isStopped subject = true.
Proof.
  intros submitted id timeout settled.
  assert (_atomUpdateSubjects settled !! id
          = Some {| Rx.value := "SUBMITTED"; Rx.delivered := [Rx.Next "SUBMITTED"];
                    Rx.isStopped := false |}) as Hsettled.
  { unfold settled, submitAtom_settled, submitAtom_finally, submitAtom_then.
    rewrite numberOfSubscriptions_next_subjects, onAtomStateSubject_lookup.
    simpl. by rewrite lookup_insert_eq. }
  assert (numberOfSubscriptions settled = numberOfSubscriptions this + 1) as Hcount.
  { unfold settled, submitAtom_settled, submitAtom_finally.
    by rewrite numberOfSubscriptions_next_count. }
  destruct (deliver_nonTerminal pre settled id _ Hsettled eq_refl Hpre)
    as (middle & subject1 & Hrun & Hcount1 & _ & Hsub1 & Hdel1 & Hlive1).
  destruct (deliver_terminal
              {| subscriberId := id; value := "STORED"; message := message |}
              middle id subject1 Hsub1 Hlive1 eq_refl eq_refl)
    as (after & subject' & Hrun' & Hcount' & Hsub' & Hdel' & Hstopped).
  exists after, subject'.
  rewrite deliver_app, Hrun, Hrun', Hcount', Hcount1, Hcount, Hdel', Hdel1.
  split; [done|]. split; [lia|]. split; [done|]. split; [|done].
  by rewrite <- app_assoc.
Qed.

Lemma stored_submission_restores_count_witness :
  ∃ after subject,
    deliver [{| subscriberId := 2; value := "SUBMITTING"; message := None |};
             {| subscriberId := 2; value := "STORED"; message := None |}]
      SubmitScenario.succeeded = Ok after
    ∧ numberOfSubscriptions after = numberOfSubscriptions Node.create
    ∧ _atomUpdateSubjects after !! 2%nat = Some subject
    ∧ Rx.delivered subject
      = [Rx.Next "SUBMITTED"; Rx.Next "SUBMITTING"; Rx.Next "STORED"; Rx.Complete]
    ∧ Rx.isStopped subject = true.
Proof.
  apply (stored_submission_restores_count Node.create
           [{| subscriberId := 2; value := "SUBMITTING"; message := None |}] None).
  apply Forall_cons; split; [split; reflexivity|]. apply Forall_nil; exact I.
Defined.

(** *** The socket closes *)

Lemma error_stopped {A} e (s : Rx.subject A) : Rx.isStopped (Rx.error e s) = true.
Proof. unfold Rx.error. by destruct (Rx.isStopped s) eqn:E. Qed.

(** X16. When the socket has closed, every subscription stream and
    every submission stream of the connection has terminated: a stream
    that was live has received the error "Socket closed" and nothing
    else, a stream that had terminated has received nothing. The event
    [closed] is emitted; the count and the pending timers stay as they
    are, so that a pending idle close or submission timeout still
    fires. *)
Theorem socket_closed_ends_streams (this : t) :
  let after := _onClosed this in
  (∀ id s, _subscriptions after !! id = Some s → Rx.isStopped s = true)
  ∧ (∀ id s, _atomUpdateSubjects after !! id = Some s → Rx.isStopped s = true)
  ∧ (∀ id, _subscriptions after !! id
           = (λ s, if Rx.isStopped s then s
                   else {| Rx.value := Rx.value s;
                           Rx.delivered := Rx.delivered s ++ [Rx.Error "Socket closed"];
                           Rx.isStopped := true |})
             <$> _subscriptions this !! id)
  ∧ (∀ id, _atomUpdateSubjects after !! id
           = (λ s, if Rx.isStopped s then s
                   else {| Rx.value := Rx.value s;
                           Rx.delivered := Rx.delivered s ++ [Rx.Error "Socket closed"];
                           Rx.isStopped := true |})
             <$> _atomUpdateSubjects this !! id)
  ∧ emitted after = emitted this ++ ["closed"]
  ∧ numberOfSubscriptions after = numberOfSubscriptions this
  ∧ timers after = timers this.
Proof.
  simpl. split; [|split; [|split; [|split]]]; try done.
  - intros id s. rewrite lookup_fmap. intros [s0 [_ ->]]%fmap_Some.
    apply error_stopped.
  - intros id s. rewrite lookup_fmap. intros [s0 [_ ->]]%fmap_Some.
    apply error_stopped.
  - intros id. by rewrite lookup_fmap.
  - intros id. by rewrite lookup_fmap.
Qed.

(** *** Subscriptions *)

Lemma numberOfSubscriptions_next_indexes v this :
  _subscriptions (numberOfSubscriptions_next v this) = _subscriptions this
  ∧ _addressSubscriptions (numberOfSubscriptions_next v this)
    = _addressSubscriptions this
  ∧ lastSubscriberId (numberOfSubscriptions_next v this) = lastSubscriberId this
  ∧ socketCalls (numberOfSubscriptions_next v this) = socketCalls this.
Proof. unfold numberOfSubscriptions_next. by case_bool_decide. Qed.

(** X17. [unsubscribe] calls Atoms.cancel with the subscriber id the
    address is bound to ([undefined] when it is bound to none), and when
    the call settles the count goes down by exactly 1, whether the call
    succeeded or failed and whether or not the address was subscribed.
    When the call failed, or the address was bound to no stream, the
    streams and the bindings of addresses stay as they are; when it
    succeeded, the stream of the address completes and the binding is
    removed. *)
Theorem unsubscribe_counts_down (address : string) (outcome : result unit) (this : t) :
  let called := (unsubscribe address this).1 in
  let id := (unsubscribe address this).2 in
  let after := unsubscribe_settled address id outcome called in
  id = _addressSubscriptions this !! address
  ∧ socketCalls called = socketCalls this ++ [("Atoms.cancel", id)]
  ∧ numberOfSubscriptions after = numberOfSubscriptions this - 1
  ∧ match outcome, id with
    | Ok _, Some i =>
        match _subscriptions this !! i with
        | Some s =>
            _subscriptions after = <[i := Rx.complete s]> (_subscriptions this)
            ∧ _addressSubscriptions after = delete address (_addressSubscriptions this)
        | None =>
            _subscriptions after = _subscriptions this
            ∧ _addressSubscriptions after = _addressSubscriptions this
        end
    | _, _ =>
        _subscriptions after = _subscriptions this
        ∧ _addressSubscriptions after = _addressSubscriptions this
    end.
Proof.
  simpl. split; [done|]. split; [done|].
  unfold unsubscribe_settled, unsubscribe_finally.
  rewrite numberOfSubscriptions_next_count.
  destruct (numberOfSubscriptions_next_indexes
              (numberOfSubscriptions
                 match outcome with
                 | Ok _ => unsubscribe_then address
                             (_addressSubscriptions this !! address)
                             (socketCall "Atoms.cancel"
                                (_addressSubscriptions this !! address) this)
                 | Throw _ => socketCall "Atoms.cancel"
                                (_addressSubscriptions this !! address) this
                 end - 1)
              match outcome with
              | Ok _ => unsubscribe_then address
                          (_addressSubscriptions this !! address)
                          (socketCall "Atoms.cancel"
                             (_addressSubscriptions this !! address) this)
              | Throw _ => socketCall "Atoms.cancel"
                             (_addressSubscriptions this !! address) this
              end) as (-> & -> & _).
  destruct outcome as [[]|e]; simpl.
  - unfold unsubscribe_then.
    destruct (_addressSubscriptions this !! address) as [i|]; simpl; [|done].
    destruct (_subscriptions this !! i) as [s|] eqn:Hs; simpl; [|done].
    split; [done|]. split; [|done].
    apply map_eq. intros j. rewrite lookup_alter, lookup_insert.
    case_decide; [subst; by rewrite Hs|done].
  - split; [done|]. by destruct (_addressSubscriptions this !! address).
Qed.

Lemma unsubscribe_counts_down_witness :
  numberOfSubscriptions
    (unsubscribe_settled "unknown" None (Throw "boom")
       (unsubscribe "unknown" Node.create).1) = 0.
Proof.
  pose proof (unsubscribe_counts_down "unknown" (Throw "boom") Node.create)
    as (_ & _ & Hcount & _).
  exact Hcount.
Defined.

#[local] Arguments subscribe_then : simpl never.
#[local] Arguments numberOfSubscriptions_next : simpl never.

Lemma subscribe_then_last this :
  lastSubscriberId (subscribe_then false this) = lastSubscriberId this.
Proof.
  unfold subscribe_then. simpl negb. cbv iota.
  apply numberOfSubscriptions_next_indexes.
Qed.

Lemma subscribe_then_subscriptions this :
  _subscriptions (subscribe_then false this) = _subscriptions this.
Proof.
  unfold subscribe_then. simpl negb. cbv iota.
  apply numberOfSubscriptions_next_indexes.
Qed.

Lemma subscribe_then_addresses this :
  _addressSubscriptions (subscribe_then false this) = _addressSubscriptions this.
Proof.
  unfold subscribe_then. simpl negb. cbv iota.
  apply numberOfSubscriptions_next_indexes.
Qed.

Lemma subscribe_then_count this :
  numberOfSubscriptions (subscribe_then false this) = numberOfSubscriptions this + 1.
Proof.
  unfold subscribe_then. simpl negb. cbv iota.
  apply numberOfSubscriptions_next_count.
Qed.

Lemma numberOfSubscriptions_next_subscriptions v this :
  _subscriptions (numberOfSubscriptions_next v this) = _subscriptions this.
Proof. apply numberOfSubscriptions_next_indexes. Qed.

Lemma numberOfSubscriptions_next_addresses v this :
  _addressSubscriptions (numberOfSubscriptions_next v this)
  = _addressSubscriptions this.
Proof. apply numberOfSubscriptions_next_indexes. Qed.

(** X18. Subscribing to an address that is already subscribed rebinds
    the address to the new stream: a later [unsubscribe] of the address
    completes the newer stream only. The older stream stays live with
    no address bound to it, a further [unsubscribe] of the address finds
    no subscriber id, and the count stays one above its value before the
    two subscriptions. *)
Theorem resubscription_orphans_stream (address : string) (this : t) :
  let first := subscribe address this in
  let second := subscribe address (subscribe_then false first.1) in
  let called := unsubscribe address (subscribe_then false second.1) in
  let after := unsubscribe_settled address called.2 (Ok ()) called.1 in
  first.2 ≠ second.2
  ∧ called.2 = Some second.2
  ∧ _subscriptions after !! first.2 = Some (Rx.create ())
  ∧ _subscriptions after !! second.2
    = Some {| Rx.value := (); Rx.delivered := [Rx.Complete]; Rx.isStopped := true |}
  ∧ _addressSubscriptions after !! address = None
  ∧ (unsubscribe address after).2 = None
  ∧ numberOfSubscriptions after = numberOfSubscriptions this + 1.
Proof.
  simpl.
  rewrite !subscribe_then_last, !subscribe_then_addresses. simpl.
  rewrite lookup_insert_eq.
  split; [lia|]. split; [done|].
  unfold unsubscribe_settled, unsubscribe_finally, unsubscribe_then.
  rewrite numberOfSubscriptions_next_count, numberOfSubscriptions_next_subscriptions,
    numberOfSubscriptions_next_addresses.
  repeat (progress (rewrite ?subscribe_then_last, ?subscribe_then_subscriptions,
                      ?subscribe_then_addresses, ?subscribe_then_count,
                      ?lookup_insert_eq; simpl)).
  rewrite lookup_alter_ne, lookup_insert_ne, lookup_insert_eq by lia.
  rewrite lookup_alter_eq, lookup_insert_eq, lookup_delete_eq.
  repeat split; try done. lia.
Qed.

End NodeFurther.
